(** * Route-contexted state and the location adapter of the TensorBoard web app

    A shallow embedding of

    - [createRouteContextedState], the reducer helper that swaps the
      route-dependent part of a state slice in and out of a private cache
      on navigation: on values ([RouteContextedState]) and on a store of
      objects held by reference ([RouteContextedHeap]);
    - [Location.getFullPathFromRouteOrNav] of app_routing/location.ts
      ([Location]);

    then a small slice to run them on ([Demo]), and the properties the
    specification states about them. *)

From stdpp Require Import gmap strings list fin_maps pretty.

Set Default Proof Using "Type".

(** ** JavaScript values

    Values a state field can hold.  Primitives are kept by value (integers
    stand for the numbers), anything else (arrays, nested objects) by
    reference: a spread or an assignment copies the reference, never the
    object it points to.  [JNative] stands for a built-in function or
    object, such as the members of [Object.prototype] that every object
    inherits. *)

Definition loc := positive.

Inductive jsval :=
  | JUndefined
  | JNull
  | JBool (b : bool)
  | JNum (n : Z)
  | JStr (s : string)
  | JRef (l : loc)
  | JNative (name : string).

#[global] Instance jsval_eq_dec : EqDecision jsval.
Proof. solve_decision. Defined.

#[global] Instance jsval_inhabited : Inhabited jsval := populate JUndefined.

(** A plain object: its own enumerable properties. *)
Abbreviation object := (gmap string jsval).

(** The names of the properties a plain object inherits from
    [Object.prototype].  Reading one of them off an object that has no own
    property of that name gives a built-in (a function, or the prototype
    itself for [__proto__]), which is truthy and has no enumerable property
    of its own. *)
Definition objectPrototype : list string :=
  ["constructor"; "hasOwnProperty"; "isPrototypeOf"; "propertyIsEnumerable";
   "toLocaleString"; "toString"; "valueOf"; "__proto__"; "__defineGetter__";
   "__defineSetter__"; "__lookupGetter__"; "__lookupSetter__"].

Definition inherited (name : string) : bool :=
  bool_decide (name ∈ objectPrototype).

(** [ToBoolean] on a value. *)
Definition truthy (v : jsval) : bool :=
  match v with
  | JUndefined | JNull => false
  | JBool b => b
  | JNum n => bool_decide (n ≠ 0%Z)
  | JStr s => bool_decide (s ≠ "")
  | JRef _ => true
  | JNative _ => true
  end.

(** [ToBoolean] on a [string | null]: [null] and the empty string are falsy. *)
Definition truthyId (id : option string) : bool :=
  match id with
  | Some s => bool_decide (s ≠ "")
  | None => false
  end.

(** [{...base, ...over}]: the properties of [over] win. *)
Definition spread2 {V} (base over : gmap string V) : gmap string V := over ∪ base.

(** ** Routes

    The route descriptor of app_routing/types:
    [{routeKind, pathname, params, queryParams: [{key, value}]}].  The kinds
    of routes and the shape of their parameters are left open. *)

Record QueryParam := mkQueryParam {
  key : string;
  value : string;
}.

Record Route (RouteKind RouteParams : Type) := mkRoute {
  routeKind : RouteKind;
  pathname : string;
  params : RouteParams;
  queryParams : list QueryParam;
}.
Arguments mkRoute {_ _} _ _ _ _.
Arguments routeKind {_ _} _.
Arguments pathname {_ _} _.
Arguments params {_ _} _.
Arguments queryParams {_ _} _.

(** ** The reducer helper, on values

    [RouteContextedState] is [NonRoutefulState & RoutefulState &
    PrivateState]: the top-level fields of the slice, and next to them the
    optional [privateNamespacedState], a dictionary from namespace id to a
    routeful state.  The state is modelled as its type has it: [fields] are
    the properties other than [privateNamespacedState], which is kept apart,
    and a routeful state is an object (so a cache entry, when there is one,
    is truthy), with fields that are not named like a member of
    [Object.prototype].  A namespace id is any string, also such a name:
    the lookup in the cache goes through the prototype ([lookupCache]).
    The store model further down reads every property that way; the two
    agree where the type holds
    ([RouteContextedHeapFacts.updateRoutefulState_simulates]). *)

Module RouteContextedState.

Record FullState := mkFullState {
  fields : gmap string jsval;
  privateNamespacedState : option (gmap string (gmap string jsval));
}.

(** [state[key]]: a property the object does not have reads [undefined]. *)
Definition getField (state : FullState) (key : string) : jsval :=
  default JUndefined (fields state !! key).

(** The snapshot the cache holds for [id]: its own entry under that key. *)
Definition cachedFor (state : FullState) (id : string)
  : option (gmap string jsval) :=
  privateNamespacedState state ≫= (.!! id).

(** What [state.privateNamespacedState?.[id]] reads: the own entry of the
    cache if it has one; else, when there is a cache and [id] names a member
    of [Object.prototype], the built-in the cache inherits under that name;
    else [undefined]. *)
Inductive cacheLookup :=
  | Snapshot (cached : gmap string jsval)
  | Builtin
  | Undefined.

Definition lookupCache (state : FullState) (id : string) : cacheLookup :=
  match privateNamespacedState state with
  | Some cache =>
      match cache !! id with
      | Some cached => Snapshot cached
      | None => if inherited id then Builtin else Undefined
      end
  | None => Undefined
  end.

(** [{...state.privateNamespacedState}]: spreading [undefined] gives [{}]. *)
Definition cacheOf (state : FullState) : gmap string (gmap string jsval) :=
  default ∅ (privateNamespacedState state).

(** What another reducer of the same slice does to a state: it rewrites
    top-level fields and hands the private cache on. *)
Definition withFields (flds : gmap string jsval) (state : FullState) : FullState :=
  {| fields := flds; privateNamespacedState := privateNamespacedState state |}.

Section createRouteContextedState.
Variable routefulInitialState : gmap string jsval.
Variable nonRoutefulInitialState : gmap string jsval.

(** [Object.keys(routefulInitialState)], in some order: the loop over them
    assigns each key once, whatever the order. *)
Definition keys : list string := (map_to_list routefulInitialState).*1.

Definition initialState : FullState :=
  {| fields := spread2 routefulInitialState nonRoutefulInitialState;
     privateNamespacedState := Some ∅ |}.

(** The loop [for (const key of keys) routefulStateToCache[key] = state[key]],
    from the object built so far. *)
Definition copyKeys (state : FullState) (ks : list string)
    (acc : gmap string jsval) : gmap string jsval :=
  foldl (λ acc key, <[key := getField state key]> acc) acc ks.

(** The routeful fields that are live in [state], as the snapshot the helper
    takes of them: [routefulStateToCache] after the loop. *)
Definition routefulStateToCache (state : FullState) : gmap string jsval :=
  copyKeys state keys ∅.

(** In the branch for a truthy lookup [nextRoutefulState] is what the lookup
    read: a cached snapshot, or a built-in, of which the spread into the
    returned state copies nothing. *)
Definition updateRoutefulState (state : FullState)
    (beforeNamespaceId : option string) (afterNamespaceId : string) : FullState :=
  let nextContextedStateCache := cacheOf state in
  let nextContextedStateCache :=
    match beforeNamespaceId with
    | Some id =>
        if truthyId beforeNamespaceId
        then <[id := routefulStateToCache state]> nextContextedStateCache
        else nextContextedStateCache
    | None => nextContextedStateCache
    end in
  let nextRoutefulState :=
    match lookupCache state afterNamespaceId with
    | Snapshot cached => cached
    | Builtin => ∅
    | Undefined =>
        if truthyId beforeNamespaceId then routefulInitialState else ∅
    end in
  {| fields := spread2 (fields state) nextRoutefulState;
     privateNamespacedState := Some nextContextedStateCache |}.

(** States the slice can be in: the initial state, changed by navigations
    (with whatever namespace ids the action carries) and by the other
    reducers of the slice. *)
Inductive reachable : FullState → Prop :=
  | reachable_initial : reachable initialState
  | reachable_navigated state beforeNamespaceId afterNamespaceId :
      reachable state →
      reachable (updateRoutefulState state beforeNamespaceId afterNamespaceId)
  | reachable_reduced state flds :
      reachable state → reachable (withFields flds state).

(** Every cached snapshot has exactly the routeful keys. *)
Definition cacheWellFormed (state : FullState) : Prop :=
  ∀ id snapshot, cachedFor state id = Some snapshot →
    dom snapshot = dom routefulInitialState.

End createRouteContextedState.

(** *** The [navigated] reducer

    [getRouteId] comes from app_routing/internal_utils; the reducer only
    compares the ids it derives, so [getRouteId] is a parameter here. *)

Inductive Action (RouteKind RouteParams : Type) :=
  | navigated (before : option (Route RouteKind RouteParams))
      (after : Route RouteKind RouteParams)
      (beforeNamespaceId : option string) (afterNamespaceId : string)
  | otherAction.
Arguments navigated {_ _} _ _ _ _.
Arguments otherAction {_ _}.

Section reducers.
Context {RouteKind RouteParams : Type}.
Variable getRouteId : RouteKind → RouteParams → string.
Variable routefulInitialState : gmap string jsval.
Variable nonRoutefulInitialState : gmap string jsval.
Variable onRouteIdChanged :
  option (FullState → Route RouteKind RouteParams → FullState).

(** The function given to [on(navigated, ...)]. *)
Definition onNavigated (state : FullState)
    (before : option (Route RouteKind RouteParams))
    (after : Route RouteKind RouteParams)
    (beforeNamespaceId : option string) (afterNamespaceId : string) : FullState :=
  let nextFullState :=
    if bool_decide (beforeNamespaceId ≠ Some afterNamespaceId)
    then updateRoutefulState routefulInitialState state
           beforeNamespaceId afterNamespaceId
    else state in
  let afterRouteId := getRouteId (routeKind after) (params after) in
  let beforeRouteId :=
    match before with
    | Some b => Some (getRouteId (routeKind b) (params b))
    | None => None
    end in
  match onRouteIdChanged with
  | Some callback =>
      if bool_decide (beforeRouteId ≠ Some afterRouteId)
      then callback nextFullState after
      else nextFullState
  | None => nextFullState
  end.

(** [createReducer(initialState, on(navigated, ...))]: an undefined state is
    the initial state, any other action leaves the state as it is. *)
Definition reducers (state : option FullState)
    (action : Action RouteKind RouteParams) : FullState :=
  let state :=
    default (initialState routefulInitialState nonRoutefulInitialState) state in
  match action with
  | navigated before after beforeNamespaceId afterNamespaceId =>
      onNavigated state before after beforeNamespaceId afterNamespaceId
  | otherAction => state
  end.

End reducers.

(** *** Navigation as the app drives it

    The app is in one namespace at a time: every [navigated] action carries
    the namespace the app was in as [beforeNamespaceId] ([null] on the first
    navigation).  Between navigations the other reducers of the slice assign
    to its fields. *)

Inductive event :=
  | Navigate (afterNamespaceId : string)
  | Assign (key : string) (value : jsval).

Section navigation.
Variable routefulInitialState : gmap string jsval.
Variable nonRoutefulInitialState : gmap string jsval.

(** One action on the namespace the app is in and the state of the slice;
    [Navigate] is [onNavigated] without an [onRouteIdChanged] callback. *)
Definition step (c : option string * FullState) (e : event)
  : option string * FullState :=
  match e with
  | Navigate afterNamespaceId =>
      (Some afterNamespaceId,
       if bool_decide (c.1 ≠ Some afterNamespaceId)
       then updateRoutefulState routefulInitialState c.2 c.1 afterNamespaceId
       else c.2)
  | Assign key value => (c.1, withFields (<[key := value]> (fields c.2)) c.2)
  end.

Definition run (events : list event) : option string * FullState :=
  foldl step (None, initialState routefulInitialState nonRoutefulInitialState)
    events.

(** The specification's reading of the data model, to compare [run] with:
    every RouteId has routeful values of its own, the values of the current
    RouteId are the live ones, an assignment to a routeful field changes the
    values of the current RouteId only, a RouteId entered for the first time
    starts from the initial defaults, and the first navigation keeps the
    values set before it. *)
Record PerRoute := mkPerRoute {
  current : option string;
  valuesOf : gmap string (gmap string jsval);
  beforeFirstNavigation : gmap string jsval;
}.

Definition liveValues (p : PerRoute) : gmap string jsval :=
  match current p with
  | Some id => default ∅ (valuesOf p !! id)
  | None => beforeFirstNavigation p
  end.

Definition perRouteStep (p : PerRoute) (e : event) : PerRoute :=
  match e with
  | Navigate id =>
      match current p with
      | None =>
          {| current := Some id;
             valuesOf := <[id := beforeFirstNavigation p]> (valuesOf p);
             beforeFirstNavigation := beforeFirstNavigation p |}
      | Some c =>
          if decide (c = id) then p
          else
            {| current := Some id;
               valuesOf :=
                 match valuesOf p !! id with
                 | Some _ => valuesOf p
                 | None => <[id := routefulInitialState]> (valuesOf p)
                 end;
               beforeFirstNavigation := beforeFirstNavigation p |}
      end
  | Assign key value =>
      if decide (key ∈ dom routefulInitialState) then
        match current p with
        | Some c =>
            {| current := current p;
               valuesOf := alter (insert key value) c (valuesOf p);
               beforeFirstNavigation := beforeFirstNavigation p |}
        | None =>
            {| current := None;
               valuesOf := valuesOf p;
               beforeFirstNavigation := <[key := value]> (beforeFirstNavigation p) |}
        end
      else p
  end.

Definition perRouteRun (events : list event) : PerRoute :=
  foldl perRouteStep
    {| current := None;
       valuesOf := ∅;
       beforeFirstNavigation :=
         routefulStateToCache routefulInitialState
           (initialState routefulInitialState nonRoutefulInitialState) |}
    events.

(** The namespace ids a run navigates to. *)
Definition navigatedIds (events : list event) : list string :=
  omap (λ e, match e with Navigate id => Some id | Assign _ _ => None end) events.

(** How the state [c] of the slice stands for the per-route values [p]: the
    live routeful fields are the values of the current RouteId, the cache
    holds the values of the others, and nothing but visited RouteIds. *)
Record represents (c : option string * FullState) (p : PerRoute) : Prop := {
  rep_current : c.1 = current p;
  rep_live : routefulStateToCache routefulInitialState c.2 = liveValues p;
  rep_dormant id values :
    current p ≠ Some id → valuesOf p !! id = Some values →
    cachedFor c.2 id = Some values;
  rep_cached id : is_Some (cachedFor c.2 id) → is_Some (valuesOf p !! id);
  rep_visited id : current p = Some id → is_Some (valuesOf p !! id);
  rep_unvisited : current p = None → valuesOf p = ∅;
  rep_keys id values :
    valuesOf p !! id = Some values → dom values = dom routefulInitialState;
  rep_keys_first : dom (beforeFirstNavigation p) = dom routefulInitialState;
}.

End navigation.

(** Splits a [represents] goal into its parts and closes the immediate ones. *)
Ltac rep_split :=
  split; simpl; unfold liveValues; simpl; try done.

End RouteContextedState.

(** ** The reducer helper, on a store of objects

    The same code with objects held by reference, to see what it does to the
    objects it is handed.  A store maps a reference to the own enumerable
    properties of a plain object, whose prototype is [Object.prototype]; a
    computation either returns a value or throws (a [TypeError], on reading
    a property of [null] or [undefined]) and leaves a store behind. *)

Module RouteContextedHeap.

Abbreviation heap := (gmap loc object).

Inductive outcome (A : Type) :=
  | Returns (a : A) (h : heap)
  | Throws (h : heap).
Arguments Returns {_} _ _.
Arguments Throws {_} _.

Definition M (A : Type) : Type := heap → outcome A.

#[global] Instance M_ret : MRet M := λ A a h, Returns a h.

#[global] Instance M_bind : MBind M := λ A B f m h,
  match m h with
  | Returns a h' => f a h'
  | Throws h' => Throws h'
  end.

(** [m], run from [h], returns, with a value and a store that satisfy [Q]. *)
Definition returnsWith {A} (m : M A) (h : heap) (Q : A → heap → Prop) : Prop :=
  match m h with
  | Returns a h' => Q a h'
  | Throws _ => False
  end.

(** The own enumerable properties of a string: its characters by index. *)
Definition stringProperties (s : string) : object :=
  list_to_map
    (imap (λ i c, (pretty i, JStr (String c EmptyString))) (String.list_ascii_of_string s)).

(** What [{...v}] copies: the own enumerable properties of [v]; nothing for
    [null], [undefined], a number, a boolean or a built-in. *)
Definition ownProperties (h : heap) (v : jsval) : object :=
  match v with
  | JRef l => default ∅ (h !! l)
  | JStr s => stringProperties s
  | _ => ∅
  end.

Definition spread (v : jsval) : M object := λ h, Returns (ownProperties h v) h.

(** An object literal: a new object. *)
Definition newObject (o : object) : M loc := λ h,
  let l := fresh (dom h) in Returns l (<[l := o]> h).

(** The own property [key] of [v], if it has one: besides the enumerable
    ones, the [length] of a string. *)
Definition getOwnProperty (h : heap) (v : jsval) (key : string)
  : option jsval :=
  match v with
  | JStr s =>
      if decide (key = "length") then Some (JNum (Z.of_nat (String.length s)))
      else stringProperties s !! key
  | _ => ownProperties h v !! key
  end.

(** What reading [key] gives when there is no own property of that name: the
    built-in inherited from [Object.prototype] if [key] names one, else
    [undefined]. *)
Definition inheritedProperty (key : string) : jsval :=
  if inherited key then JNative key else JUndefined.

(** [o[key]] on the properties [o] of a plain object. *)
Definition readProperty (o : object) (key : string) : jsval :=
  default (inheritedProperty key) (o !! key).

(** [v[key]]: the own property, else the one inherited from
    [Object.prototype]; reading a property of [null] or [undefined] throws.
    What a string, a number, a boolean or a function inherits besides is
    left out: the helper reads properties off the state and off its cache,
    which are objects. *)
Definition getProperty (v : jsval) (key : string) : M jsval := λ h,
  match v with
  | JUndefined | JNull => Throws h
  | _ => Returns (default (inheritedProperty key) (getOwnProperty h v key)) h
  end.

(** [v?.[key]] *)
Definition getPropertyOptional (v : jsval) (key : string) : M jsval :=
  match v with
  | JUndefined | JNull => mret JUndefined
  | _ => getProperty v key
  end.

(** [l[key] = v] on an object [l], for a [key] other than [__proto__]: the
    helper assigns under the keys of the routeful initial state. *)
Definition setProperty (l : loc) (key : string) (v : jsval) : M unit := λ h,
  Returns tt (<[l := <[key := v]> (default ∅ (h !! l))]> h).

(** [for (const key of ks) body(key)] *)
Fixpoint forOf (ks : list string) (body : string → M unit) : M unit :=
  match ks with
  | [] => mret tt
  | key :: ks => body key;; forOf ks body
  end.

Section createRouteContextedState.
(** The object [routefulInitialState] and [Object.keys] of it, as taken when
    the helper was created. *)
Variable routefulInitialState : loc.
Variable keys : list string.

Definition updateRoutefulState (state : loc)
    (beforeNamespaceId : option string) (afterNamespaceId : string) : M loc :=
  priv ← getProperty (JRef state) "privateNamespacedState";
  copied ← spread priv;
  nextContextedStateCache ← newObject copied;
  nextContextedStateCache ←
    match beforeNamespaceId with
    | Some id =>
        if truthyId beforeNamespaceId then
          routefulStateToCache ← newObject ∅;
          forOf keys (λ key,
            v ← getProperty (JRef state) key;
            setProperty routefulStateToCache key v);;
          copied ← spread (JRef nextContextedStateCache);
          newObject (<[id := JRef routefulStateToCache]> copied)
        else mret nextContextedStateCache
    | None => mret nextContextedStateCache
    end;
  nextRoutefulState ← newObject ∅;
  priv ← getProperty (JRef state) "privateNamespacedState";
  cached ← getPropertyOptional priv afterNamespaceId;
  nextRoutefulState ←
    (if truthy cached then
       priv ← getProperty (JRef state) "privateNamespacedState";
       getProperty priv afterNamespaceId
     else if truthyId beforeNamespaceId then mret (JRef routefulInitialState)
     else mret (JRef nextRoutefulState));
  fromState ← spread (JRef state);
  fromNext ← spread nextRoutefulState;
  newObject
    (<["privateNamespacedState" := JRef nextContextedStateCache]>
       (spread2 fromState fromNext)).

End createRouteContextedState.

(** *** Reading a state off the store

    The value the object at [state] stands for, when it has the shape of a
    [RouteContextedState]: [privateNamespacedState] absent, [undefined], or
    an object whose properties are objects. *)

Definition derefObject (h : heap) (v : jsval) : option object :=
  match v with
  | JRef l => h !! l
  | _ => None
  end.

Definition readCache (h : heap) (v : jsval)
  : option (option (gmap string object)) :=
  match v with
  | JUndefined => Some None
  | JRef c =>
      match h !! c with
      | Some entries =>
          if decide (map_Forall (λ (_ : string) e, is_Some (derefObject h e))
                       entries)
          then Some (Some (omap (derefObject h) entries))
          else None
      | None => None
      end
  | _ => None
  end.

Definition readState (h : heap) (state : loc)
  : option RouteContextedState.FullState :=
  match h !! state with
  | Some o =>
      match readCache h (default JUndefined (o !! "privateNamespacedState")) with
      | Some cache =>
          Some (RouteContextedState.mkFullState
                  (delete "privateNamespacedState" o) cache)
      | None => None
      end
  | None => None
  end.

End RouteContextedHeap.

(** ** The location adapter (app_routing/location.ts) *)

Module Location.

(** A navigation request: of its properties the adapter reads [pathname]. *)
Record Navigation := mkNavigation {
  navigationPathname : string;
}.

Inductive RouteOrNavigation (RouteKind RouteParams : Type) :=
  | ARoute (route : Route RouteKind RouteParams)
  | ANavigation (navigation : Navigation).
Arguments ARoute {_ _} _.
Arguments ANavigation {_ _} _.

(** What the adapter reads of [window.location]. *)
Record Window := mkWindow {
  href : string;
  hash : string;
}.

(** Modelled from the spec: [createURLSearchParamsFromSerializableQueryParams]
    (app_routing/internal_utils, not part of these sources) followed by
    [URLSearchParams.toString]: the parameters in order, each as [k=v], joined
    by [&]; [encode] is the form-urlencoding of a key or of a value. *)
Definition searchParamsToString (encode : string → string)
    (queryParams : list QueryParam) : string :=
  String.concat "&"
    (map (λ p, encode (key p) +:+ "=" +:+ encode (value p)) queryParams).

Section Location.
Context {RouteKind RouteParams : Type}.
(** [new URL(relativePath, base).pathname], the browser's. *)
Variable urlPathname : string → string → string.
(** The form-urlencoding of [URLSearchParams], the browser's. *)
Variable encode : string → string.
Variable window : Window.

Definition getHref : string := href window.

Definition getHash : string := hash window.

Definition getResolvedPath (relativePath : string) : string :=
  urlPathname relativePath getHref.

Definition hasOwnProperty (routeLike : RouteOrNavigation RouteKind RouteParams)
    (name : string) : bool :=
  match routeLike with
  | ARoute _ =>
      bool_decide (name ∈ ["routeKind"; "pathname"; "params"; "queryParams"])
  | ANavigation _ => bool_decide (name ∈ ["pathname"])
  end.

Definition isNavigation
    (navOrRoute : RouteOrNavigation RouteKind RouteParams) : bool :=
  hasOwnProperty navOrRoute "pathname" &&
  negb (hasOwnProperty navOrRoute "queryParams").

(** [routeLike.pathname] *)
Definition pathnameOf (routeLike : RouteOrNavigation RouteKind RouteParams)
  : string :=
  match routeLike with
  | ARoute route => pathname route
  | ANavigation navigation => navigationPathname navigation
  end.

(** [routeLike.queryParams]: a navigation request has no such property, and
    reads [undefined] ([None]). *)
Definition queryParamsOf (routeLike : RouteOrNavigation RouteKind RouteParams)
  : option (list QueryParam) :=
  match routeLike with
  | ARoute route => Some (queryParams route)
  | ANavigation _ => None
  end.

(** [shouldPreserveHash] is optional: [None] when the caller leaves it out.
    The result is [None] when the call throws: the [TypeError] of reading
    [length] off [undefined], which [&&] does only when [isNavigation] is
    false. *)
Definition getFullPathFromRouteOrNav
    (routeLike : RouteOrNavigation RouteKind RouteParams)
    (shouldPreserveHash : option bool) : option string :=
  let pathname := getResolvedPath (pathnameOf routeLike) in
  search ←
    (if negb (isNavigation routeLike) then
       queryParams ← queryParamsOf routeLike;
       Some (if bool_decide (length queryParams ≠ 0)
             then "?" +:+ searchParamsToString encode queryParams
             else "")
     else Some "");
  let hash := if default false shouldPreserveHash then getHash else "" in
  Some (pathname +:+ search +:+ hash).

End Location.

End Location.

(** ** A small slice to run the code on

    One routeful field, [count], starting at 0, and one field shared by all
    routes, [theme]. *)

Module Demo.
Import RouteContextedState.

Definition routefulInitialState : gmap string jsval := {["count" := JNum 0]}.

Definition nonRoutefulInitialState : gmap string jsval :=
  {["theme" := JStr "dark"]}.

Definition initialState : FullState :=
  RouteContextedState.initialState routefulInitialState nonRoutefulInitialState.

Definition updateRoutefulState :=
  RouteContextedState.updateRoutefulState routefulInitialState.

Definition routefulStateToCache :=
  RouteContextedState.routefulStateToCache routefulInitialState.

(** [{...state, count: n}] *)
Definition withCount (n : Z) (state : FullState) : FullState :=
  withFields (<["count" := JNum n]> (fields state)) state.

(** Count to 5 in namespace [A], then go to [B]. *)
Definition visitedB : FullState :=
  updateRoutefulState (withCount 5 initialState) (Some "A") "B".

(** Start in [A] with the count at 3, count to 5, look at [B], change the
    theme there, come back. *)
Definition session : list event :=
  [Assign "count" (JNum 3); Navigate "A"; Assign "count" (JNum 5);
   Navigate "B"; Assign "theme" (JStr "light"); Navigate "A"].

(** The same with the empty string as the first namespace id. *)
Definition sessionFromEmptyId : list event :=
  [Navigate ""; Assign "count" (JNum 5); Navigate "B"].

(** A state whose cache was written by hand, with a field in the snapshot
    for [B] that is not a routeful one. *)
Definition handWritten : FullState :=
  {| fields := {["count" := JNum 1; "theme" := JStr "dark"]};
     privateNamespacedState :=
       Some {["B" := {["count" := JNum 5; "theme" := JStr "light"]}]} |}.

(** Route ids of the example: the route kind and the parameters are strings,
    the id joins them. *)
Definition getRouteId (routeKind params : string) : string :=
  routeKind +:+ "/" +:+ params.

Definition experiment (id : string) : Route string string :=
  mkRoute "experiment" ("/experiment/" +:+ id) id
    [mkQueryParam "tag" "loss"; mkQueryParam "smoothing" "0.6"].

Definition experiments : Route string string :=
  mkRoute "experiments" "/experiments" "" [].

(** A callback that resets the count. *)
Definition resetCount (state : FullState) (route : Route string string)
  : FullState :=
  withCount 0 state.

(** A store: the routeful initial state at 1, a state at 2 whose cache, at 3,
    holds for namespace [A] the snapshot at 4. *)
Definition store : gmap loc object :=
  {[ 1%positive := {["count" := JNum 0]};
     2%positive := {["count" := JNum 5; "theme" := JStr "dark";
                     "privateNamespacedState" := JRef 3%positive]};
     3%positive := {["A" := JRef 4%positive]};
     4%positive := {["count" := JNum 7]} ]}.

Definition storeState : FullState :=
  {| fields := {["count" := JNum 5; "theme" := JStr "dark"]};
     privateNamespacedState := Some {["A" := {["count" := JNum 7]}]} |}.

(** The browser of the example: paths resolve to themselves, nothing needs
    encoding. *)
Definition window : Location.Window :=
  Location.mkWindow "http://localhost:6006/#scalars" "#scalars".

Definition urlPathname (relativePath base : string) : string := relativePath.

Definition encode (s : string) : string := s.

End Demo.

(** ** What a run leaves in a field shared by all routes *)

Module SharedFields.
Import RouteContextedState.

(** The value last assigned to [key] in a run, [initial] if there was none. *)
Definition lastAssigned (key : string) (initial : option jsval)
    (events : list event) : option jsval :=
  foldl
    (λ acc e,
       match e with
       | Assign k v => if decide (k = key) then Some v else acc
       | Navigate _ => acc
       end)
    initial events.

End SharedFields.

(** ** The query parameters of the current location

    [Location.getSearch] of app_routing/location.ts. *)

Module LocationSearch.

Section getSearch.
(** [new URLSearchParams(search)], the browser's: the entries of a query
    string, each a key and a value, in the order [forEach] visits them. *)
Variable urlSearchParams : string → list (string * string).
(** [window.location.search] *)
Variable search : string.

(** [forEach] calls back with the value first and the key second. *)
Definition forEach {A} (entries : list (string * string))
    (callback : string → string → A → A) (acc : A) : A :=
  foldl (λ acc entry, callback entry.2 entry.1 acc) acc entries.

Definition getSearch : list QueryParam :=
  let searchParams := urlSearchParams search in
  let serializableSearchParams := [] in
  forEach searchParams
    (λ value key serializableSearchParams,
       serializableSearchParams ++ [mkQueryParam key value])
    serializableSearchParams.

End getSearch.

End LocationSearch.
(** * Properties *)

Lemma lookup_spread2 {V} (base over : gmap string V) k :
  spread2 base over !! k =
    match over !! k with Some v => Some v | None => base !! k end.
Proof.
  unfold spread2. destruct (over !! k) as [v|] eqn:E.
  - by apply lookup_union_Some_l.
  - by rewrite lookup_union_r.
Qed.

(** What a loop of assignments [acc[key] = f(key)] leaves under each key. *)
Lemma lookup_foldl_insert {V} (f : string → V) ks (acc : gmap string V) k :
  foldl (λ acc key, <[key := f key]> acc) acc ks !! k =
    if decide (k ∈ ks) then Some (f k) else acc !! k.
Proof.
  revert acc. induction ks as [|key ks IH]; intros acc.
  - rewrite decide_False; [done | apply not_elem_of_nil].
  - cbn [foldl]. rewrite IH.
    destruct (decide (k ∈ ks)) as [Hin|Hnin].
    + rewrite decide_True; [done | by apply elem_of_cons; right].
    + destruct (decide (k = key)) as [->|Hne].
      * rewrite decide_True by (apply elem_of_cons; by left).
        apply lookup_insert_eq.
      * rewrite decide_False.
        -- by apply lookup_insert_ne.
        -- intros [?|?]%elem_of_cons; done.
Qed.

Module RouteContextedStateFacts.
Import RouteContextedState.

Section snapshot.
Variable routefulInitialState : gmap string jsval.

Local Abbreviation keys := (keys routefulInitialState).
Local Abbreviation routefulStateToCache := (routefulStateToCache routefulInitialState).
Local Abbreviation updateRoutefulState := (updateRoutefulState routefulInitialState).
Local Abbreviation cacheWellFormed := (cacheWellFormed routefulInitialState).

Lemma elem_of_keys k : k ∈ keys ↔ k ∈ dom routefulInitialState.
Proof.
  unfold RouteContextedState.keys. rewrite elem_of_dom, list_elem_of_fmap. split.
  - intros [[k' v] [-> Hin]]. apply elem_of_map_to_list in Hin. by exists v.
  - intros [v Hv]. exists (k, v). split; [done|]. by apply elem_of_map_to_list.
Qed.

(** What the copying loop leaves under each key. *)
Lemma lookup_copyKeys state ks acc k :
  copyKeys state ks acc !! k =
    if decide (k ∈ ks) then Some (getField state k) else acc !! k.
Proof.
  apply (lookup_foldl_insert (getField state)).
Qed.

Lemma lookup_routefulStateToCache state k :
  routefulStateToCache state !! k =
    if decide (k ∈ dom routefulInitialState) then Some (getField state k)
    else None.
Proof.
  unfold RouteContextedState.routefulStateToCache. rewrite lookup_copyKeys.
  destruct (decide (k ∈ keys)) as [H|H]; rewrite elem_of_keys in H.
  - by rewrite decide_True.
  - by rewrite decide_False.
Qed.

Lemma dom_routefulStateToCache state :
  dom (routefulStateToCache state) = dom routefulInitialState.
Proof.
  apply set_eq. intros k. rewrite elem_of_dom, lookup_routefulStateToCache.
  case_decide; [by split; [|eauto] | split; [by intros [? ?] | done]].
Qed.

(** The snapshot reads the fields only. *)
Lemma routefulStateToCache_fields s1 s2 :
  (∀ k, k ∈ dom routefulInitialState → fields s1 !! k = fields s2 !! k) →
  routefulStateToCache s1 = routefulStateToCache s2.
Proof.
  intros H. apply map_eq. intros k. rewrite !lookup_routefulStateToCache.
  case_decide; [|done]. unfold getField. by rewrite H.
Qed.

(** Spreading an object that has every routeful key over a state makes that
    object the live routeful state. *)
Lemma routefulStateToCache_restore flds priv (values : gmap string jsval) :
  dom values = dom routefulInitialState →
  routefulStateToCache (mkFullState (spread2 flds values) priv) = values.
Proof.
  intros Hdom. apply map_eq. intros k. rewrite lookup_routefulStateToCache.
  unfold getField. simpl. rewrite lookup_spread2.
  case_decide as Hk; rewrite <- Hdom, elem_of_dom in Hk.
  - destruct Hk as [v Hv]. by rewrite Hv.
  - destruct (values !! k) eqn:E; [|done]. exfalso. eauto.
Qed.

Lemma routefulStateToCache_untouched flds priv :
  routefulStateToCache (mkFullState (spread2 flds ∅) priv) =
  routefulStateToCache (mkFullState flds priv).
Proof.
  apply routefulStateToCache_fields. intros k _. simpl.
  by rewrite lookup_spread2, lookup_empty.
Qed.

Lemma lookup_cacheOf state id : cacheOf state !! id = cachedFor state id.
Proof. unfold cacheOf, cachedFor. by destruct (privateNamespacedState state). Qed.

(** What the lookup of the transition reads, by the own entries of the
    cache. *)
Lemma lookupCache_cachedFor state id :
  lookupCache state id =
    match cachedFor state id with
    | Some cached => Snapshot cached
    | None =>
        match privateNamespacedState state with
        | Some _ => if inherited id then Builtin else Undefined
        | None => Undefined
        end
    end.
Proof.
  unfold lookupCache, cachedFor.
  destruct (privateNamespacedState state) as [cache|]; simpl; [|done].
  by destruct (cache !! id).
Qed.

Lemma lookupCache_Snapshot state id cached :
  cachedFor state id = Some cached → lookupCache state id = Snapshot cached.
Proof. intros H. by rewrite lookupCache_cachedFor, H. Qed.

Lemma lookupCache_not_inherited state id :
  inherited id = false →
  lookupCache state id =
    match cachedFor state id with
    | Some cached => Snapshot cached
    | None => Undefined
    end.
Proof.
  intros H. rewrite lookupCache_cachedFor, H.
  destruct (cachedFor state id); [done|].
  by destruct (privateNamespacedState state).
Qed.

(** The cache a transition returns. *)
Lemma cachedFor_updateRoutefulState state before N id :
  cachedFor (updateRoutefulState state before N) id =
    if decide (before = Some id ∧ id ≠ "")
    then Some (routefulStateToCache state)
    else cachedFor state id.
Proof.
  destruct (decide (before = Some id ∧ id ≠ "")) as [[-> Hid]|Hn].
  - unfold RouteContextedState.updateRoutefulState, cachedFor at 1. simpl.
    rewrite bool_decide_true by done. apply lookup_insert_eq.
  - unfold RouteContextedState.updateRoutefulState, cachedFor at 1.
    destruct before as [b|]; simpl; [case_bool_decide as Hb|];
      [|apply lookup_cacheOf..].
    rewrite lookup_insert_ne; [apply lookup_cacheOf|].
    intros ->. by apply Hn.
Qed.

(** The live routeful state a transition returns, when every key of the
    snapshot it restores is a routeful key and none is missing. *)
Lemma routefulStateToCache_updateRoutefulState state before N :
  (∀ snapshot, cachedFor state N = Some snapshot →
     dom snapshot = dom routefulInitialState) →
  routefulStateToCache (updateRoutefulState state before N) =
    match lookupCache state N with
    | Snapshot snapshot => snapshot
    | Builtin => routefulStateToCache state
    | Undefined =>
        if truthyId before then routefulInitialState
        else routefulStateToCache state
    end.
Proof.
  intros Hwf. unfold RouteContextedState.updateRoutefulState.
  rewrite lookupCache_cachedFor.
  destruct (cachedFor state N) as [snapshot|].
  - apply routefulStateToCache_restore. by apply Hwf.
  - assert (routefulStateToCache
              (mkFullState (spread2 (fields state) ∅)
                 (privateNamespacedState
                    (updateRoutefulState state before N))) =
            routefulStateToCache state) as Hkept.
    { rewrite routefulStateToCache_untouched.
      by apply routefulStateToCache_fields. }
    destruct (privateNamespacedState state) as [cache|];
      [destruct (inherited N)|]; [exact Hkept| |];
      (destruct (truthyId before);
       [by apply routefulStateToCache_restore | exact Hkept]).
Qed.

(** The same, into a namespace whose id names no member of
    [Object.prototype]: the lookup finds the own entry or nothing. *)
Lemma routefulStateToCache_updateRoutefulState_own state before N :
  (∀ snapshot, cachedFor state N = Some snapshot →
     dom snapshot = dom routefulInitialState) →
  inherited N = false →
  routefulStateToCache (updateRoutefulState state before N) =
    match cachedFor state N with
    | Some snapshot => snapshot
    | None =>
        if truthyId before then routefulInitialState
        else routefulStateToCache state
    end.
Proof.
  intros Hwf HN. rewrite routefulStateToCache_updateRoutefulState by done.
  rewrite lookupCache_not_inherited by done.
  by destruct (cachedFor state N).
Qed.

(** The same, into a namespace the cache has an entry for. *)
Lemma routefulStateToCache_updateRoutefulState_hit state before N snapshot :
  cachedFor state N = Some snapshot →
  dom snapshot = dom routefulInitialState →
  routefulStateToCache (updateRoutefulState state before N) = snapshot.
Proof.
  intros Hc Hdom. rewrite routefulStateToCache_updateRoutefulState.
  - by rewrite (lookupCache_Snapshot _ _ _ Hc).
  - intros ?. rewrite Hc. by intros [= <-].
Qed.

Lemma cacheWellFormed_updateRoutefulState state before N :
  cacheWellFormed state → cacheWellFormed (updateRoutefulState state before N).
Proof.
  intros Hwf id snapshot. rewrite cachedFor_updateRoutefulState.
  case_decide; [|by apply Hwf].
  intros [= <-]. apply dom_routefulStateToCache.
Qed.

Lemma reachable_cacheWellFormed nonRoutefulInitialState state :
  reachable routefulInitialState nonRoutefulInitialState state →
  cacheWellFormed state.
Proof.
  induction 1 as [|state before N _ IH|state flds _ IH].
  - intros id snapshot. unfold cachedFor. simpl. by rewrite lookup_empty.
  - by apply cacheWellFormed_updateRoutefulState.
  - exact IH.
Qed.

(** X1: every snapshot in the cache of a reachable state has exactly the keys
    of the routeful initial state. *)
Theorem cached_snapshots_have_routeful_keys
    nonRoutefulInitialState state id snapshot :
  reachable routefulInitialState nonRoutefulInitialState state →
  cachedFor state id = Some snapshot →
  dom snapshot = dom routefulInitialState.
Proof. intros Hreach. by apply (reachable_cacheWellFormed _ _ Hreach). Qed.

(** C1 (amended): in every state the slice can reach, the routeful state that
    is live right after a transition into a namespace [N] whose id is not the
    name of a member of [Object.prototype] is the snapshot cached under [N]
    if there is one; otherwise the routeful initial state if the previous
    namespace id is neither null nor the empty string; otherwise the
    routeful fields as they were before the transition. *)
Theorem live_state_after_transition nonRoutefulInitialState state before N :
  reachable routefulInitialState nonRoutefulInitialState state →
  inherited N = false →
  routefulStateToCache (updateRoutefulState state before N) =
    match cachedFor state N with
    | Some snapshot => snapshot
    | None =>
        if truthyId before then routefulInitialState
        else routefulStateToCache state
    end.
Proof.
  intros Hreach HN. apply routefulStateToCache_updateRoutefulState_own; [|done].
  intros snapshot. by apply (reachable_cacheWellFormed _ _ Hreach).
Qed.

(** C2 (amended): after a transition whose previous namespace id is neither
    null nor empty, the cache holds under that id exactly the routeful fields
    that were live in the input state (key by key, [undefined] for a field the
    state lacks), whatever was stored there before; every other entry is
    carried over. *)
Theorem previous_state_is_cached state id N :
  id ≠ "" →
  cachedFor (updateRoutefulState state (Some id) N) id =
    Some (routefulStateToCache state) ∧
  (∀ k, routefulStateToCache state !! k =
        if decide (k ∈ dom routefulInitialState) then Some (getField state k)
        else None) ∧
  (∀ other, other ≠ id →
     cachedFor (updateRoutefulState state (Some id) N) other =
     cachedFor state other).
Proof.
  intros Hid. split; [|split].
  - rewrite cachedFor_updateRoutefulState. by rewrite decide_True.
  - apply lookup_routefulStateToCache.
  - intros other Hother. rewrite cachedFor_updateRoutefulState.
    rewrite decide_False; [done | intros [[= ->] _]; done].
Qed.

(** With a null previous namespace id and no snapshot to restore, the
    transition spreads an empty object over the fields. *)
Lemma fields_first_navigation state N :
  cachedFor state N = None →
  fields (updateRoutefulState state None N) = fields state.
Proof.
  intros Hmiss. unfold RouteContextedState.updateRoutefulState.
  rewrite lookupCache_cachedFor, Hmiss. cbn [truthyId fields].
  assert (spread2 (fields state) ∅ = fields state) as Hkept
    by (unfold spread2; apply (left_id_L ∅ (∪))).
  destruct (privateNamespacedState state); [destruct (inherited N)|]; done.
Qed.

(** C3: on the first navigation (null previous namespace id) into a
    namespace the cache has no entry for, the fields of the state, and so its
    routeful fields, are returned as they were. *)
Theorem first_navigation_keeps_fields state N :
  cachedFor state N = None →
  fields (updateRoutefulState state None N) = fields state ∧
  routefulStateToCache (updateRoutefulState state None N) =
    routefulStateToCache state.
Proof.
  intros Hmiss. pose proof (fields_first_navigation state N Hmiss) as Hf.
  split; [done|]. apply routefulStateToCache_fields. intros k _. by rewrite Hf.
Qed.

(** C4 (amended): leave [A] for [B], change the fields in any way, go back to
    [A] and again to [B]: when [B] is not the empty string the routeful fields
    live at the end are the changed ones, as they were when [B] was left. *)
Theorem revisit_restores_mutated_snapshot state A B flds :
  B ≠ "" →
  let s1 := updateRoutefulState state (Some A) B in
  let s2 := withFields flds s1 in
  let s3 := updateRoutefulState s2 (Some B) A in
  let s4 := updateRoutefulState s3 (Some A) B in
  routefulStateToCache s4 = routefulStateToCache s2.
Proof.
  intros HB s1 s2 s3 s4.
  assert (cachedFor s3 B = Some (routefulStateToCache s2)) as Hc.
  { unfold s3. rewrite cachedFor_updateRoutefulState. by rewrite decide_True. }
  unfold s4.
  apply (routefulStateToCache_updateRoutefulState_hit _ _ _ _ Hc).
  apply dom_routefulStateToCache.
Qed.

(** C5: a transition removes no cache entry. *)
Theorem cache_never_evicts state before N id :
  is_Some (cachedFor state id) →
  is_Some (cachedFor (updateRoutefulState state before N) id).
Proof.
  intros Hsome. rewrite cachedFor_updateRoutefulState. by case_decide.
Qed.

(** A field outside the routeful keys after a transition: the restored
    snapshot's, if it has one, else the input state's. *)
Lemma lookup_fields_updateRoutefulState state before N key :
  key ∉ dom routefulInitialState →
  fields (updateRoutefulState state before N) !! key =
    match cachedFor state N ≫= (.!! key) with
    | Some v => Some v
    | None => fields state !! key
    end.
Proof.
  intros Hkey. unfold RouteContextedState.updateRoutefulState.
  cbn [fields]. rewrite lookup_spread2, lookupCache_cachedFor.
  apply not_elem_of_dom in Hkey.
  destruct (cachedFor state N) as [snapshot|]; simpl; [done|].
  destruct (privateNamespacedState state); [destruct (inherited N)|];
    try destruct (truthyId before); by rewrite ?Hkey, ?lookup_empty.
Qed.

(** C10 (amended): a transition changes no top-level field outside the keys
    of the routeful initial state, provided the snapshot it restores, if
    any, has routeful keys only. *)
Theorem non_routeful_fields_untouched state before N key :
  (∀ snapshot, cachedFor state N = Some snapshot →
     dom snapshot ⊆ dom routefulInitialState) →
  key ∉ dom routefulInitialState →
  fields (updateRoutefulState state before N) !! key = fields state !! key.
Proof.
  intros Hwf Hkey. rewrite lookup_fields_updateRoutefulState by done.
  destruct (cachedFor state N) as [snapshot|]; simpl; [|done].
  specialize (Hwf snapshot eq_refl).
  destruct (snapshot !! key) eqn:E; [|done].
  exfalso. apply Hkey, Hwf. apply elem_of_dom. eauto.
Qed.

(** In every reachable state the cache holds snapshots of the routeful keys
    only, so there a transition changes no other field. *)
Lemma reachable_non_routeful_fields_untouched
    nonRoutefulInitialState state before N key :
  reachable routefulInitialState nonRoutefulInitialState state →
  key ∉ dom routefulInitialState →
  fields (updateRoutefulState state before N) !! key = fields state !! key.
Proof.
  intros Hreach Hkey. rewrite lookup_fields_updateRoutefulState by done.
  destruct (cachedFor state N) as [snapshot|] eqn:Hc; simpl; [|done].
  pose proof (reachable_cacheWellFormed _ _ Hreach _ _ Hc) as Hdom.
  destruct (snapshot !! key) eqn:E; [|done].
  exfalso. apply Hkey. rewrite <- Hdom. apply elem_of_dom. eauto.
Qed.

End snapshot.
End RouteContextedStateFacts.

Module ReducerFacts.
Import RouteContextedState.

Section reducers.
Context {RouteKind RouteParams : Type}.
Variable getRouteId : RouteKind → RouteParams → string.
Variable routefulInitialState : gmap string jsval.
Variable nonRoutefulInitialState : gmap string jsval.
Variable onRouteIdChanged :
  option (FullState → Route RouteKind RouteParams → FullState).

Local Abbreviation reducers :=
  (reducers getRouteId routefulInitialState nonRoutefulInitialState
     onRouteIdChanged).

(** C9: a navigated action with the same namespace id before and after, and
    with either the same route id before and after or no [onRouteIdChanged]
    callback, gives back the state it was handed. *)
Theorem same_namespace_is_identity state before after id :
  (∃ b, before = Some b ∧
        getRouteId (routeKind b) (params b) =
        getRouteId (routeKind after) (params after)) ∨
  onRouteIdChanged = None →
  reducers (Some state) (navigated before after (Some id) id) = state.
Proof.
  intros H. unfold RouteContextedState.reducers, onNavigated.
  cbn [default from_option].
  rewrite (bool_decide_false (Some id ≠ Some id)) by (intros Hne; by apply Hne).
  destruct onRouteIdChanged as [callback|]; [|done].
  destruct H as [(b & -> & Heq)|?]; [|done].
  rewrite Heq. rewrite bool_decide_false; [done | intros Hne; by apply Hne].
Qed.

(** Without a callback the reducer is the [Navigate] step of a run. *)
Lemma onNavigated_step state before after beforeNamespaceId afterNamespaceId :
  onNavigated getRouteId routefulInitialState None state before after
    beforeNamespaceId afterNamespaceId =
  (step routefulInitialState (beforeNamespaceId, state)
     (Navigate afterNamespaceId)).2.
Proof. done. Qed.

End reducers.
End ReducerFacts.

Module NavigationFacts.
Import RouteContextedState RouteContextedStateFacts.

Section navigation.
Variable routefulInitialState : gmap string jsval.
Variable nonRoutefulInitialState : gmap string jsval.

Local Abbreviation routefulStateToCache :=
  (routefulStateToCache routefulInitialState).
Local Abbreviation updateRoutefulState :=
  (updateRoutefulState routefulInitialState).
Local Abbreviation step := (step routefulInitialState).
Local Abbreviation perRouteStep := (perRouteStep routefulInitialState).
Local Abbreviation run := (run routefulInitialState nonRoutefulInitialState).
Local Abbreviation perRouteRun :=
  (perRouteRun routefulInitialState nonRoutefulInitialState).
Local Abbreviation represents := (represents routefulInitialState).

Lemma routefulStateToCache_assign state key value :
  routefulStateToCache (withFields (<[key := value]> (fields state)) state) =
    if decide (key ∈ dom routefulInitialState)
    then <[key := value]> (routefulStateToCache state)
    else routefulStateToCache state.
Proof.
  apply map_eq. intros k. rewrite lookup_routefulStateToCache.
  unfold getField. simpl.
  destruct (decide (key ∈ dom routefulInitialState)) as [Hkey|Hkey].
  - destruct (decide (k = key)) as [->|Hne].
    + rewrite !lookup_insert_eq. by rewrite decide_True.
    + rewrite !lookup_insert_ne by done. by rewrite lookup_routefulStateToCache.
  - rewrite lookup_routefulStateToCache. case_decide as Hk; [|done].
    rewrite lookup_insert_ne; [done | by intros ->].
Qed.

Lemma represents_initial : represents (run []) (perRouteRun []).
Proof.
  split; simpl; try done.
  apply dom_routefulStateToCache.
Qed.

Lemma represents_assign c p key value :
  represents c p →
  represents (step c (Assign key value)) (perRouteStep p (Assign key value)).
Proof.
  intros [Hcur Hlive Hdorm Hcached Hvis Hunvis Hkeys Hfirst].
  destruct c as [cur state]. simpl in *.
  unfold RouteContextedState.perRouteStep, liveValues in *.
  destruct (decide (key ∈ dom routefulInitialState)) as [Hkey|Hkey].
  - destruct (current p) as [c|] eqn:Ec.
    + destruct (Hvis c eq_refl) as [vc Hvc].
      rep_split.
      * rewrite routefulStateToCache_assign, decide_True by done.
        rewrite Hlive, lookup_alter_eq, Hvc. done.
      * intros id values Hid. rewrite lookup_alter_ne by congruence.
        by apply Hdorm.
      * intros id Hc. rewrite lookup_alter_is_Some. by apply Hcached.
      * intros id [= <-]. rewrite lookup_alter_is_Some. eauto.
      * intros id values. destruct (decide (c = id)) as [<-|Hne].
        -- rewrite lookup_alter_eq, Hvc. intros [= <-].
           rewrite dom_insert_lookup_L; [by apply (Hkeys c)|].
           apply elem_of_dom. by rewrite (Hkeys c vc Hvc).
        -- rewrite lookup_alter_ne by done. apply Hkeys.
    + rep_split.
      * rewrite routefulStateToCache_assign, decide_True by done.
        by rewrite Hlive.
      * rewrite dom_insert_lookup_L; [done|].
        apply elem_of_dom. by rewrite Hfirst.
  - rep_split.
    rewrite routefulStateToCache_assign, decide_False by done. done.
Qed.

Lemma represents_navigate c p id :
  (∀ b, c.1 = Some b → b ≠ "") →
  inherited id = false →
  represents c p →
  represents (step c (Navigate id)) (perRouteStep p (Navigate id)).
Proof.
  intros Hne Hown [Hcur Hlive Hdorm Hcached Hvis Hunvis Hkeys Hfirst].
  destruct c as [cur state]. simpl in *. subst cur.
  unfold RouteContextedState.perRouteStep, liveValues in *.
  destruct (current p) as [c|] eqn:Ec.
  - destruct (decide (c = id)) as [->|Hcid].
    + rewrite bool_decide_false by (intros H; by apply H).
      split; simpl; unfold liveValues; rewrite ?Ec; try done.
    + rewrite bool_decide_true by congruence.
      specialize (Hne c eq_refl).
      destruct (Hvis c eq_refl) as [vc Hvc]. rewrite Hvc in Hlive. simpl in Hlive.
      assert (cachedFor state id = valuesOf p !! id) as Hid.
      { destruct (valuesOf p !! id) as [v|] eqn:Ev.
        - apply Hdorm; [congruence | done].
        - destruct (cachedFor state id) eqn:Ecache; [|done].
          destruct (Hcached id) as [? ?]; [eauto | congruence]. }
      split; simpl; unfold liveValues; simpl.
      * done.
      * rewrite routefulStateToCache_updateRoutefulState_own.
        -- rewrite Hid. destruct (valuesOf p !! id) as [v|] eqn:Ev.
           ++ by rewrite Ev.
           ++ rewrite lookup_insert_eq. simpl.
              by rewrite bool_decide_true.
        -- intros snapshot. rewrite Hid. apply Hkeys.
        -- done.
      * intros other values Hother Hval.
        rewrite cachedFor_updateRoutefulState.
        assert (valuesOf p !! other = Some values) as Hval'.
        { destruct (valuesOf p !! id) eqn:Ev; [done|].
          rewrite lookup_insert_ne in Hval; [done | congruence]. }
        destruct (decide (c = other)) as [<-|Hco].
        -- rewrite decide_True by done. congruence.
        -- rewrite decide_False by (intros [[= ?] _]; done).
           apply Hdorm; [congruence | done].
      * intros other. rewrite cachedFor_updateRoutefulState.
        assert (is_Some (valuesOf p !! other) →
                is_Some (match valuesOf p !! id with
                         | Some _ => valuesOf p
                         | None => <[id := routefulInitialState]> (valuesOf p)
                         end !! other)) as Hmono.
        { destruct (valuesOf p !! id); [done|].
          rewrite lookup_insert_is_Some. destruct (decide (id = other)); eauto. }
        case_decide as Hd.
        -- destruct Hd as [[= <-] _]. intros _. apply Hmono. eauto.
        -- intros Hc. by apply Hmono, Hcached.
      * intros other [= <-]. destruct (valuesOf p !! id) eqn:Ev.
        -- rewrite Ev. eauto.
        -- rewrite lookup_insert_eq. eauto.
      * done.
      * intros other values. destruct (valuesOf p !! id) eqn:Ev; [apply Hkeys|].
        rewrite lookup_insert. case_decide; [by intros [= <-] | apply Hkeys].
      * done.
  - rewrite bool_decide_true by done.
    specialize (Hunvis eq_refl).
    assert (∀ other, cachedFor state other = None) as Hempty.
    { intros other. destruct (cachedFor state other) eqn:E; [|done].
      destruct (Hcached other) as [v Hv]; [eauto|].
      by rewrite Hunvis, lookup_empty in Hv. }
    assert (routefulStateToCache (updateRoutefulState state None id) =
            routefulStateToCache state) as Hsame.
    { apply routefulStateToCache_fields. intros k _.
      by rewrite (fields_first_navigation routefulInitialState state id
                    (Hempty id)). }
    split; simpl; unfold liveValues; simpl.
    + done.
    + rewrite Hsame, lookup_insert_eq. done.
    + intros other values Hother. rewrite lookup_insert_ne by congruence.
      by rewrite Hunvis, lookup_empty.
    + intros other. rewrite cachedFor_updateRoutefulState.
      rewrite decide_False by (intros [? _]; done).
      rewrite Hempty. by intros [? ?].
    + intros other [= <-]. rewrite lookup_insert_eq. eauto.
    + done.
    + intros other values. rewrite lookup_insert. case_decide.
      * by intros [= <-].
      * by rewrite Hunvis, lookup_empty.
    + done.
Qed.

Lemma run_snoc events e : run (events ++ [e]) = step (run events) e.
Proof. unfold RouteContextedState.run. by rewrite foldl_snoc. Qed.

Lemma perRouteRun_snoc events e :
  perRouteRun (events ++ [e]) = perRouteStep (perRouteRun events) e.
Proof. unfold RouteContextedState.perRouteRun. by rewrite foldl_snoc. Qed.

(** The namespace a run is in is one it navigated to. *)
Lemma run_current events b :
  (run events).1 = Some b → b ∈ navigatedIds events.
Proof.
  revert b. induction events as [|e events IH] using rev_ind; intros b.
  - done.
  - rewrite run_snoc. unfold navigatedIds. rewrite omap_app, elem_of_app.
    destruct e as [id|key value]; simpl.
    + intros [= <-]. right. apply elem_of_cons. by left.
    + intros H. left. by apply IH.
Qed.

Lemma represents_run events :
  Forall (λ id, id ≠ "" ∧ inherited id = false) (navigatedIds events) →
  represents (run events) (perRouteRun events).
Proof.
  induction events as [|e events IH] using rev_ind; intros Hids.
  - apply represents_initial.
  - rewrite run_snoc, perRouteRun_snoc.
    unfold navigatedIds in Hids. rewrite omap_app, Forall_app in Hids.
    destruct Hids as [Hids Hlast]. specialize (IH Hids).
    destruct e as [id|key value].
    + apply represents_navigate; [| |done].
      * intros b Hb. apply run_current in Hb.
        rewrite Forall_forall in Hids. by apply Hids.
      * simpl in Hlast. apply Forall_cons in Hlast. by destruct Hlast as [[_ ?] _].
    + by apply represents_assign.
Qed.

(** C6 (amended): along every run of navigations (to namespace ids that are
    neither the empty string nor the name of a member of [Object.prototype])
    and field assignments from the initial state, the routeful fields at the
    top level are the values of the one RouteId the app is in, and the values
    of every other RouteId visited so far sit in the cache, untouched by what
    happened since that RouteId was left. *)
Theorem one_route_live events :
  Forall (λ id, id ≠ "" ∧ inherited id = false) (navigatedIds events) →
  (run events).1 = current (perRouteRun events) ∧
  routefulStateToCache (run events).2 = liveValues (perRouteRun events) ∧
  ∀ id values,
    current (perRouteRun events) ≠ Some id →
    valuesOf (perRouteRun events) !! id = Some values →
    cachedFor (run events).2 id = Some values.
Proof.
  intros Hids. destruct (represents_run events Hids). eauto.
Qed.

(** The states of a run are reachable states. *)
Lemma run_reachable events :
  reachable routefulInitialState nonRoutefulInitialState (run events).2.
Proof.
  induction events as [|e events IH] using rev_ind.
  - constructor.
  - rewrite run_snoc. destruct e as [id|key value]; simpl.
    + case_bool_decide; [by constructor | done].
    + by constructor.
Qed.

End navigation.
End NavigationFacts.

Module RouteContextedHeapFacts.
Import RouteContextedHeap.

(** *** Rules for running a computation *)

Lemma returnsWith_ret {A} (a : A) h Q : Q a h → returnsWith (mret a) h Q.
Proof. done. Qed.

Lemma returnsWith_bind {A B} (m : M A) (f : A → M B) h Q :
  returnsWith m h (λ a h', returnsWith (f a) h' Q) →
  returnsWith (m ≫= f) h Q.
Proof.
  unfold returnsWith, mbind, M_bind. by destruct (m h).
Qed.

Lemma returnsWith_mono {A} (m : M A) h (Q Q' : A → heap → Prop) :
  (∀ a h', Q a h' → Q' a h') → returnsWith m h Q → returnsWith m h Q'.
Proof. unfold returnsWith. destruct (m h); eauto. Qed.

Lemma returnsWith_inv {A} (m : M A) h Q :
  returnsWith m h Q → ∃ a h', m h = Returns a h' ∧ Q a h'.
Proof. unfold returnsWith. destruct (m h); [eauto | done]. Qed.

Lemma returnsWith_spread v h Q :
  Q (ownProperties h v) h → returnsWith (spread v) h Q.
Proof. done. Qed.

Lemma returnsWith_newObject o h (Q : loc → heap → Prop) :
  (∀ l, h !! l = None → Q l (<[l := o]> h)) →
  returnsWith (newObject o) h Q.
Proof.
  intros HQ. unfold returnsWith, newObject. apply HQ.
  apply not_elem_of_dom, is_fresh.
Qed.

Lemma returnsWith_getProperty_ref l key h Q :
  Q (readProperty (default ∅ (h !! l)) key) h →
  returnsWith (getProperty (JRef l) key) h Q.
Proof. done. Qed.

(** A name [Object.prototype] has no member of reads [undefined] when the
    object has no property of that name. *)
Lemma readProperty_own (o : object) key :
  inherited key = false → readProperty o key = default JUndefined (o !! key).
Proof. intros H. unfold readProperty, inheritedProperty. by rewrite H. Qed.

Lemma readProperty_privateNamespacedState (o : object) :
  readProperty o "privateNamespacedState" =
  default JUndefined (o !! "privateNamespacedState").
Proof. by apply readProperty_own. Qed.

Lemma returnsWith_setProperty l key v h (Q : unit → heap → Prop) :
  Q tt (<[l := <[key := v]> (default ∅ (h !! l))]> h) →
  returnsWith (setProperty l key v) h Q.
Proof. done. Qed.

(** A loop keeps what its body keeps. *)
Lemma returnsWith_forOf (I : heap → Prop) ks body h :
  (∀ key h', I h' → returnsWith (body key) h' (λ _ h'', I h'')) →
  I h → returnsWith (forOf ks body) h (λ _ h', I h').
Proof.
  intros Hbody. revert h. induction ks as [|key ks IH]; intros h HI.
  - done.
  - simpl. apply returnsWith_bind.
    eapply returnsWith_mono; [|by apply Hbody].
    intros [] h' HI'. by apply IH.
Qed.

(** Reading through [?.] never throws, and a truthy result means the base
    was neither [null] nor [undefined]. *)
Lemma returnsWith_getPropertyOptional v key h (Q : jsval → heap → Prop) :
  (∀ r, (truthy r = true → v ≠ JUndefined ∧ v ≠ JNull) → Q r h) →
  returnsWith (getPropertyOptional v key) h Q.
Proof.
  intros HQ. unfold returnsWith.
  destruct v; simpl; apply HQ; done.
Qed.

Lemma returnsWith_getProperty v key h (Q : jsval → heap → Prop) :
  v ≠ JUndefined → v ≠ JNull → (∀ r, Q r h) →
  returnsWith (getProperty v key) h Q.
Proof.
  intros ?? HQ. unfold returnsWith.
  destruct v; simpl; try done; apply HQ.
Qed.

Section createRouteContextedState.
Variable routefulInitialState : loc.
Variable keys : list string.

Local Abbreviation updateRoutefulState :=
  (updateRoutefulState routefulInitialState keys).

(** The transition on the store: it returns, what it returns is a new
    object, and every object of the store it started from is as it was. *)
Lemma updateRoutefulState_frame state before N h :
  returnsWith (updateRoutefulState state before N) h
    (λ res h', h ⊆ h' ∧ h !! res = None ∧ is_Some (h' !! res)).
Proof.
  unfold RouteContextedHeap.updateRoutefulState.
  apply returnsWith_bind, returnsWith_getProperty_ref.
  apply returnsWith_bind, returnsWith_spread.
  apply returnsWith_bind, returnsWith_newObject. intros l1 Hl1.
  assert (h ⊆ <[l1 := ownProperties h
                  (readProperty (default ∅ (h !! state))
                     "privateNamespacedState")]> h)
    as Hsub1 by by apply insert_subseteq.
  apply returnsWith_bind.
  apply (returnsWith_mono _ _ (λ _ h', h ⊆ h')).
  - intros cacheLoc h2 Hsub2.
    apply returnsWith_bind, returnsWith_newObject. intros l4 Hl4.
    assert (h ⊆ <[l4 := ∅]> h2) as Hsub4.
    { etrans; [done|]. by apply insert_subseteq. }
    apply returnsWith_bind, returnsWith_getProperty_ref.
    apply returnsWith_bind, returnsWith_getPropertyOptional. intros cached Hcached.
    apply returnsWith_bind.
    apply (returnsWith_mono _ _ (λ _ h', h' = <[l4 := ∅]> h2)).
    + intros next h5 ->.
      apply returnsWith_bind, returnsWith_spread.
      apply returnsWith_bind, returnsWith_spread.
      apply returnsWith_newObject. intros l5 Hl5.
      split; [|split].
      * etrans; [done|]. by apply insert_subseteq.
      * eapply lookup_weaken_None; done.
      * rewrite lookup_insert_eq. eauto.
    + destruct (truthy cached) eqn:Ht.
      * destruct (Hcached eq_refl) as [? ?].
        apply returnsWith_bind, returnsWith_getProperty_ref.
        by apply returnsWith_getProperty.
      * by destruct (truthyId before).
  - destruct before as [id|]; [|done].
    destruct (truthyId (Some id)); [|done].
    apply returnsWith_bind, returnsWith_newObject. intros l2 Hl2.
    assert (h !! l2 = None) as Hl2' by (eapply lookup_weaken_None; done).
    apply returnsWith_bind.
    apply (returnsWith_mono _ _ (λ _ h', h ⊆ h')).
    + intros [] h3 Hsub3.
      apply returnsWith_bind, returnsWith_spread.
      apply returnsWith_newObject. intros l3 Hl3.
      etrans; [done|]. by apply insert_subseteq.
    + apply returnsWith_forOf.
      * intros key h' Hsub'.
        apply returnsWith_bind, returnsWith_getProperty_ref.
        apply returnsWith_setProperty. by apply insert_subseteq_r.
      * apply insert_subseteq_r; [done|]. done.
Qed.


(** *** The store computation against the computation on values *)

Lemma derefObject_weaken h h' v o :
  h ⊆ h' → derefObject h v = Some o → derefObject h' v = Some o.
Proof.
  intros Hsub. destruct v; simpl; try done.
  intros Hl. by eapply lookup_weaken.
Qed.

Lemma lookup_omap_derefObject h (entries : object) id :
  map_Forall (λ _ e, is_Some (derefObject h e)) entries →
  omap (derefObject h) entries !! id =
    match entries !! id with
    | Some e => derefObject h e
    | None => None
    end.
Proof. intros _. rewrite lookup_omap. by destruct (entries !! id). Qed.

Lemma omap_derefObject_weaken h h' (entries : object) :
  h ⊆ h' →
  map_Forall (λ _ e, is_Some (derefObject h e)) entries →
  map_Forall (λ _ e, is_Some (derefObject h' e)) entries ∧
  omap (derefObject h') entries = omap (derefObject h) entries.
Proof.
  intros Hsub Hall. split.
  - intros id e He. destruct (Hall id e He) as [o Ho].
    exists o. by eapply derefObject_weaken.
  - apply map_eq. intros id. rewrite !lookup_omap.
    destruct (entries !! id) as [e|] eqn:He; [simpl|done].
    destruct (Hall id e He) as [o Ho]. rewrite Ho.
    by eapply derefObject_weaken.
Qed.

Lemma readCache_weaken h h' v cache :
  h ⊆ h' → readCache h v = Some cache → readCache h' v = Some cache.
Proof.
  intros Hsub. destruct v as [| | | | |c|]; simpl; try done.
  destruct (h !! c) as [entries|] eqn:Hc; [|done].
  rewrite (lookup_weaken _ _ _ _ Hc Hsub).
  case_decide as Hall; [|done]. intros [= <-].
  destruct (omap_derefObject_weaken h h' entries Hsub Hall) as [Hall' ->].
  by rewrite decide_True.
Qed.

Lemma readCache_Some h l entries cache :
  h !! l = Some entries →
  map_Forall (λ _ e, is_Some (derefObject h e)) entries →
  omap (derefObject h) entries = cache →
  readCache h (JRef l) = Some (Some cache).
Proof. intros Hl Hall <-. simpl. rewrite Hl. by rewrite decide_True. Qed.

(** What [readCache] says about the properties a spread of the cache copies. *)
Lemma readCache_ownProperties h v cache :
  readCache h v = Some cache →
  map_Forall (λ _ e, is_Some (derefObject h e)) (ownProperties h v) ∧
  omap (derefObject h) (ownProperties h v) = default ∅ cache ∧
  (v = JUndefined ∧ cache = None ∨
   ∃ c, v = JRef c ∧ h !! c = Some (ownProperties h v) ∧ is_Some cache).
Proof.
  destruct v as [| | | | |c|]; simpl; try done.
  - intros [= <-]. split; [apply map_Forall_empty|].
    split; [apply omap_empty | by left].
  - destruct (h !! c) as [entries|] eqn:Hc; [|done].
    case_decide as Hall; [|done]. intros [= <-]. simpl. eauto 10.
Qed.

Lemma returnsWith_copyKeys state l ks h o acc (Q : unit → heap → Prop) :
  state ≠ l → h !! state = Some o → h !! l = Some acc →
  Q tt (<[l := foldl (λ acc key, <[key := readProperty o key]> acc)
                acc ks]> h) →
  returnsWith
    (forOf ks (λ key, v ← getProperty (JRef state) key; setProperty l key v))
    h Q.
Proof.
  intros Hne. revert h acc. induction ks as [|key ks IH]; intros h acc Hs Hl HQ.
  - simpl in HQ. by rewrite insert_id in HQ.
  - simpl. apply returnsWith_bind.
    apply returnsWith_bind, returnsWith_getProperty_ref.
    apply returnsWith_setProperty. rewrite Hs, Hl. simpl.
    eapply IH.
    + by rewrite lookup_insert_ne.
    + by rewrite lookup_insert_eq.
    + by rewrite insert_insert_eq.
Qed.


(** The object literal the transition ends with, read back. *)
Lemma returnsWith_result state o nextValue next cacheLoc cache h :
  h !! state = Some o →
  ownProperties h nextValue = next →
  "privateNamespacedState" ∉ dom next →
  readCache h (JRef cacheLoc) = Some (Some cache) →
  returnsWith
    (fromState ← spread (JRef state);
     fromNext ← spread nextValue;
     newObject
       (<["privateNamespacedState" := JRef cacheLoc]>
          (spread2 fromState fromNext)))
    h
    (λ res h',
       readState h' res =
       Some (RouteContextedState.mkFullState
               (spread2 (delete "privateNamespacedState" o) next)
               (Some cache))).
Proof.
  intros Hstate Hnext Hpriv Hcache.
  apply returnsWith_bind, returnsWith_spread.
  apply returnsWith_bind, returnsWith_spread.
  apply returnsWith_newObject. intros l Hl.
  unfold readState. rewrite lookup_insert_eq, lookup_insert_eq.
  cbn [default from_option].
  rewrite (readCache_weaken h _ _ _ (insert_subseteq _ _ _ Hl) Hcache).
  do 2 f_equal. rewrite delete_insert_eq. unfold spread2.
  rewrite delete_union. simpl. rewrite Hstate, Hnext. simpl.
  rewrite (delete_id next); [done|]. by apply not_elem_of_dom.
Qed.

(** The snapshot loop builds the snapshot of the computation on values. *)
Lemma copyKeys_snapshot (init o : object) cache :
  (∀ k, k ∈ keys ↔ k ∈ dom init) →
  (∀ k, k ∈ keys → inherited k = false) →
  "privateNamespacedState" ∉ dom init →
  foldl (λ acc key, <[key := readProperty o key]> acc) ∅ keys =
  RouteContextedState.routefulStateToCache init
    (RouteContextedState.mkFullState
       (delete "privateNamespacedState" o) cache).
Proof.
  intros Hkeys Hown Hpriv. apply map_eq. intros k.
  rewrite (lookup_foldl_insert (readProperty o)).
  rewrite RouteContextedStateFacts.lookup_routefulStateToCache.
  destruct (decide (k ∈ keys)) as [Hk|Hk].
  - rewrite (readProperty_own _ _ (Hown k Hk)). rewrite Hkeys in Hk.
    rewrite decide_True by done. unfold RouteContextedState.getField. simpl.
    rewrite lookup_delete_ne; [done | by intros <-].
  - rewrite Hkeys in Hk. by rewrite decide_False.
Qed.

Lemma updateRoutefulState_simulates (init : object) state s before N h :
  h !! routefulInitialState = Some init →
  (∀ k, k ∈ keys ↔ k ∈ dom init) →
  (∀ k, k ∈ keys → inherited k = false) →
  "privateNamespacedState" ∉ dom init →
  readState h state = Some s →
  (∀ snapshot, RouteContextedState.cachedFor s N = Some snapshot →
     "privateNamespacedState" ∉ dom snapshot) →
  returnsWith (updateRoutefulState state before N) h
    (λ res h',
       readState h' res =
       Some (RouteContextedState.updateRoutefulState init s before N)).
Proof.
  intros Hinit Hkeys Hown Hpriv Hread Hsnap.
  unfold readState in Hread.
  destruct (h !! state) as [o|] eqn:Hstate; [|done].
  destruct (readCache h (default JUndefined (o !! "privateNamespacedState")))
    as [cache|] eqn:Hcache; [|done].
  injection Hread as <-.
  destruct (readCache_ownProperties _ _ _ Hcache) as (Hall & Homap & Hpv).
  set (pv := default JUndefined (o !! "privateNamespacedState")) in *.
  set (entries0 := ownProperties h pv) in *.
  set (s := RouteContextedState.mkFullState
              (delete "privateNamespacedState" o) cache) in *.
  assert (RouteContextedState.cacheOf s = omap (derefObject h) entries0)
    as HcacheOf by done.
  assert (RouteContextedState.cachedFor s N =
          match entries0 !! N with
          | Some e => derefObject h e
          | None => None
          end) as HcachedFor.
  { rewrite <- RouteContextedStateFacts.lookup_cacheOf, HcacheOf.
    by apply lookup_omap_derefObject. }
  unfold RouteContextedHeap.updateRoutefulState.
  apply returnsWith_bind, returnsWith_getProperty_ref.
  rewrite Hstate. simpl. rewrite readProperty_privateNamespacedState. fold pv.
  apply returnsWith_bind, returnsWith_spread. fold entries0.
  apply returnsWith_bind, returnsWith_newObject. intros l1 Hl1.
  assert (h ⊆ <[l1 := entries0]> h) as Hsub1 by by apply insert_subseteq.
  assert (state ≠ l1) as Hs1 by congruence.
  destruct (omap_derefObject_weaken _ _ _ Hsub1 Hall) as [Hall1 Homap1].
  apply returnsWith_bind.
  apply (returnsWith_mono _ _
    (λ cacheLoc h4,
       h ⊆ h4 ∧
       readCache h4 (JRef cacheLoc) =
       Some (RouteContextedState.privateNamespacedState
               (RouteContextedState.updateRoutefulState init s before N)))).
  - intros cacheLoc h4 [Hsub4 Hcache4].
    apply returnsWith_bind, returnsWith_newObject. intros l4 Hl4.
    assert (h4 ⊆ <[l4 := ∅]> h4) as Hsub5 by by apply insert_subseteq.
    assert (h ⊆ <[l4 := ∅]> h4) as Hsub5' by by etrans.
    pose proof (lookup_weaken _ _ _ _ Hstate Hsub5') as Hstate5.
    pose proof (readCache_weaken _ _ _ _ Hsub5 Hcache4) as Hcache5.
    apply returnsWith_bind, returnsWith_getProperty_ref.
    rewrite Hstate5. simpl. rewrite readProperty_privateNamespacedState.
    fold pv.
    set (h5 := <[l4 := ∅]> h4) in *.
    unfold RouteContextedState.updateRoutefulState in Hcache5 |- *.
    cbn [RouteContextedState.privateNamespacedState] in Hcache5.
    cbn [RouteContextedState.fields] in *.
    rewrite RouteContextedStateFacts.lookupCache_cachedFor.
    assert (returnsWith
              ((if truthyId before then mret (JRef routefulInitialState)
                else mret (JRef l4)) ≫= λ nextRoutefulState,
               fromState ← spread (JRef state);
               fromNext ← spread nextRoutefulState;
               newObject
                 (<["privateNamespacedState" := JRef cacheLoc]>
                    (spread2 fromState fromNext)))
              h5
              (λ res h',
                 readState h' res =
                 Some (RouteContextedState.mkFullState
                         (spread2 (delete "privateNamespacedState" o)
                            (if truthyId before then init else ∅))
                         (Some
                            match before with
                            | Some id =>
                                if truthyId before
                                then <[id := RouteContextedState.routefulStateToCache
                                               init s]>
                                       (RouteContextedState.cacheOf s)
                                else RouteContextedState.cacheOf s
                            | None => RouteContextedState.cacheOf s
                            end)))) as Hmiss.
    { apply returnsWith_bind. destruct (truthyId before).
      - apply returnsWith_ret, returnsWith_result; try done.
        simpl. by rewrite (lookup_weaken _ _ _ _ Hinit Hsub5').
      - apply returnsWith_ret, returnsWith_result; try done.
        simpl. unfold h5. by rewrite lookup_insert_eq. }
    destruct Hpv as [[Hu Hnone] | (c & Hc & Hhc & [entries Hentries])].
    + rewrite Hu. simpl. apply returnsWith_bind, returnsWith_ret. simpl.
      assert (entries0 = ∅) as He0 by (unfold entries0; by rewrite Hu).
      rewrite He0, lookup_empty in HcachedFor. rewrite HcachedFor.
      unfold s at 1. cbn [RouteContextedState.privateNamespacedState].
      by rewrite Hnone.
    + rewrite Hc. simpl. apply returnsWith_bind, returnsWith_getProperty_ref.
      rewrite (lookup_weaken _ _ _ _ Hhc Hsub5'). simpl.
      unfold readProperty.
      destruct (entries0 !! N) as [e|] eqn:He.
      * destruct (Hall N e He) as [snapshot Hsnapshot].
        destruct e as [| | | | |sl|]; try done. simpl in Hsnapshot.
        simpl. apply returnsWith_bind.
        apply returnsWith_bind, returnsWith_getProperty_ref.
        rewrite Hstate5. simpl. rewrite readProperty_privateNamespacedState.
        fold pv. rewrite Hc.
        apply returnsWith_getProperty_ref.
        rewrite (lookup_weaken _ _ _ _ Hhc Hsub5'). simpl.
        unfold readProperty. rewrite He. simpl.
        rewrite HcachedFor. simpl. rewrite Hsnapshot.
        apply returnsWith_result; try done.
        -- simpl. by rewrite (lookup_weaken _ _ _ _ Hsnapshot Hsub5').
        -- apply Hsnap. by rewrite HcachedFor.
      * rewrite HcachedFor.
        unfold s at 1. cbn [RouteContextedState.privateNamespacedState].
        rewrite Hentries. cbn [default from_option id].
        unfold inheritedProperty. destruct (inherited N) eqn:HN.
        -- simpl. apply returnsWith_bind.
           apply returnsWith_bind, returnsWith_getProperty_ref.
           rewrite Hstate5. simpl. rewrite readProperty_privateNamespacedState.
           fold pv. rewrite Hc.
           apply returnsWith_getProperty_ref.
           rewrite (lookup_weaken _ _ _ _ Hhc Hsub5'). simpl.
           unfold readProperty, inheritedProperty. rewrite He, HN. simpl.
           apply returnsWith_result; try done.
        -- done.
  - unfold RouteContextedState.updateRoutefulState.
    cbn [RouteContextedState.privateNamespacedState].
    set (h1 := <[l1 := entries0]> h) in *.
    assert (readCache h1 (JRef l1) =
            Some (Some (RouteContextedState.cacheOf s))) as Hbase.
    { apply readCache_Some with entries0; [apply lookup_insert_eq | done|].
      by rewrite Homap1. }
    destruct before as [id|]; [|done].
    destruct (truthyId (Some id)); [|done].
    apply returnsWith_bind, returnsWith_newObject. intros l2 Hl2.
    assert (h1 !! state = Some o) as Hstate1
      by by eapply lookup_weaken.
    assert (state ≠ l2) as Hs2 by congruence.
    apply returnsWith_bind.
    apply (returnsWith_copyKeys state l2 keys _ o ∅); [done| | |].
    { by rewrite lookup_insert_ne. }
    { by rewrite lookup_insert_eq. }
    rewrite insert_insert_eq.
    rewrite (copyKeys_snapshot init o cache Hkeys Hown Hpriv). fold s.
    set (snapshot := RouteContextedState.routefulStateToCache init s).
    assert (h1 ⊆ <[l2 := snapshot]> h1) as Hsub2 by by apply insert_subseteq.
    assert (l2 ≠ l1) as Hl21.
    { intros ->. unfold h1 in Hl2. by rewrite lookup_insert_eq in Hl2. }
    apply returnsWith_bind, returnsWith_spread. simpl.
    rewrite lookup_insert_ne by done.
    unfold h1 at 1. rewrite lookup_insert_eq. simpl.
    apply returnsWith_newObject. intros l3 Hl3.
    assert (<[l2 := snapshot]> h1 ⊆
            <[l3 := <[id := JRef l2]> entries0]> (<[l2 := snapshot]> h1))
      as Hsub3 by by apply insert_subseteq.
    assert (h ⊆ <[l3 := <[id := JRef l2]> entries0]> (<[l2 := snapshot]> h1))
      as Hsub by (etrans; [done|]; by etrans).
    destruct (omap_derefObject_weaken _ _ _ Hsub Hall) as [Hall3 Homap3].
    split; [done|].
    apply readCache_Some with (<[id := JRef l2]> entries0).
    + apply lookup_insert_eq.
    + apply map_Forall_insert_2; [|done]. simpl.
      rewrite lookup_insert_ne, lookup_insert_eq; [eauto|].
      intros <-. by rewrite lookup_insert_eq in Hl3.
    + rewrite (omap_insert_Some _ _ _ _ snapshot).
      * by rewrite Homap3, HcacheOf.
      * simpl. rewrite lookup_insert_ne, lookup_insert_eq; [done|].
        intros <-. by rewrite lookup_insert_eq in Hl3.
Qed.


Lemma readState_weaken h h' state s :
  h ⊆ h' → readState h state = Some s → readState h' state = Some s.
Proof.
  intros Hsub. unfold readState.
  destruct (h !! state) as [o|] eqn:Hstate; [|done].
  rewrite (lookup_weaken _ _ _ _ Hstate Hsub).
  destruct (readCache h _) as [cache|] eqn:Hcache; [|done].
  by rewrite (readCache_weaken _ _ _ _ Hsub Hcache).
Qed.

(** C8: run from any store, on any state object and any pair of namespace
    ids, the transition returns (it does not throw); the object it returns is
    a new one; every object of the store it started from, the input state and
    its cache among them, is as it was; and the state it returns, read as a
    value, is the function [RouteContextedState.updateRoutefulState] of the
    input state read as a value, the two ids and the routeful initial state
    (whose keys are not named like members of [Object.prototype]): the cache
    lookup under a name the cache only inherits from [Object.prototype]
    included. *)
Theorem transition_is_total_and_pure state before N h :
  ∃ res h',
    updateRoutefulState state before N h = Returns res h' ∧
    h ⊆ h' ∧
    h !! res = None ∧
    (∀ s, readState h state = Some s → readState h' state = Some s) ∧
    (∀ init s,
       h !! routefulInitialState = Some init →
       (∀ k, k ∈ keys ↔ k ∈ dom init) →
       (∀ k, k ∈ keys → inherited k = false) →
       "privateNamespacedState" ∉ dom init →
       readState h state = Some s →
       (∀ snapshot, RouteContextedState.cachedFor s N = Some snapshot →
          "privateNamespacedState" ∉ dom snapshot) →
       readState h' res =
       Some (RouteContextedState.updateRoutefulState init s before N)).
Proof.
  destruct (returnsWith_inv _ _ _ (updateRoutefulState_frame state before N h))
    as (res & h' & Hrun & Hsub & Hfresh & _).
  exists res, h'. split; [done|]. split; [done|]. split; [done|]. split.
  - intros s. by apply readState_weaken.
  - intros init s Hinit Hkeys Hown Hpriv Hread Hsnap.
    pose proof (updateRoutefulState_simulates init state s before N h
                  Hinit Hkeys Hown Hpriv Hread Hsnap) as Hsim.
    unfold returnsWith in Hsim. by rewrite Hrun in Hsim.
Qed.

End createRouteContextedState.
End RouteContextedHeapFacts.

Module LocationFacts.
Import Location.

Lemma append_empty_r (s : string) : s +:+ "" = s.
Proof.
  induction s as [|c s IH]; [done|].
  change (String c (s +:+ "") = String c s). by rewrite IH.
Qed.

Lemma append_assoc (s1 s2 s3 : string) :
  (s1 +:+ s2) +:+ s3 = s1 +:+ s2 +:+ s3.
Proof.
  induction s1 as [|c s1 IH]; [done|].
  change (String c ((s1 +:+ s2) +:+ s3) = String c (s1 +:+ s2 +:+ s3)).
  by rewrite IH.
Qed.

Section Location.
Context {RouteKind RouteParams : Type}.
Variable urlPathname : string → string → string.
Variable encode : string → string.
Variable window : Window.

Local Abbreviation getFullPathFromRouteOrNav :=
  (getFullPathFromRouteOrNav (RouteKind := RouteKind)
     (RouteParams := RouteParams) urlPathname encode window).
Local Abbreviation getResolvedPath := (getResolvedPath urlPathname window).

(** A route is no navigation: it has a [queryParams] property. *)
Lemma isNavigation_route (route : Route RouteKind RouteParams) :
  isNavigation (ARoute route) = false.
Proof. done. Qed.

(** A navigation request is one: it has a [pathname] and no [queryParams]. *)
Lemma isNavigation_navigation navigation :
  isNavigation (RouteKind := RouteKind) (RouteParams := RouteParams)
    (ANavigation navigation) = true.
Proof. done. Qed.

(** The full path of a route in general: resolved path, then the query string
    if the route has parameters, then the hash if it is to be kept. *)
Lemma getFullPathFromRouteOrNav_route route shouldPreserveHash :
  getFullPathFromRouteOrNav (ARoute route) shouldPreserveHash =
  Some
    (getResolvedPath (pathname route) +:+
     (match queryParams route with
      | [] => ""
      | _ :: _ => "?" +:+ searchParamsToString encode (queryParams route)
      end) +:+
     (if default false shouldPreserveHash then getHash window else "")).
Proof.
  unfold Location.getFullPathFromRouteOrNav. rewrite isNavigation_route.
  simpl. by destruct (queryParams route).
Qed.

(** C7: applied to a route without query parameters the full path is the
    resolved path and nothing more; applied to a route with query parameters
    it is the resolved path, a [?], and the parameters in order as [k=v]
    joined by [&]. *)
Theorem full_path_of_route route :
  (queryParams route = [] →
   getFullPathFromRouteOrNav (ARoute route) None =
   Some (getResolvedPath (pathname route))) ∧
  (queryParams route ≠ [] →
   getFullPathFromRouteOrNav (ARoute route) None =
   Some
     (getResolvedPath (pathname route) +:+ "?" +:+
      String.concat "&"
        (map (λ p, encode (key p) +:+ "=" +:+ encode (value p))
           (queryParams route)))).
Proof.
  rewrite getFullPathFromRouteOrNav_route. cbn [default from_option]. split.
  - intros ->. by rewrite !append_empty_r.
  - intros Hne. destruct (queryParams route) as [|p ps] eqn:E; [done|].
    by rewrite append_empty_r.
Qed.

(** X2: with [shouldPreserveHash] the hash of the current location follows
    the full path the call gives without it. *)
Lemma full_path_with_hash route :
  ∃ path,
    getFullPathFromRouteOrNav (ARoute route) None = Some path ∧
    getFullPathFromRouteOrNav (ARoute route) (Some true) =
    Some (path +:+ getHash window).
Proof.
  rewrite !getFullPathFromRouteOrNav_route. cbn [default from_option].
  eexists. split; [done|]. by rewrite append_empty_r, !append_assoc.
Qed.

(** X3: applied to a navigation request the call does not throw, and the full
    path has no query string: [isNavigation] holds of the request, so the
    [queryParams] it lacks is never read.  The path is the resolved path,
    followed by the hash of the current location with
    [shouldPreserveHash]. *)
Lemma full_path_of_navigation navigation :
  getFullPathFromRouteOrNav (ANavigation navigation) None =
    Some (getResolvedPath (navigationPathname navigation)) ∧
  getFullPathFromRouteOrNav (ANavigation navigation) (Some true) =
    Some (getResolvedPath (navigationPathname navigation) +:+ getHash window).
Proof.
  unfold Location.getFullPathFromRouteOrNav.
  rewrite isNavigation_navigation. simpl. by rewrite !append_empty_r.
Qed.

End Location.
End LocationFacts.

(** ** The theorems at work on the example slice *)

Module DemoFacts.
Import RouteContextedState Demo.
Import RouteContextedStateFacts ReducerFacts NavigationFacts.
Import RouteContextedHeapFacts LocationFacts.

Lemma reachable_visitedB :
  reachable routefulInitialState nonRoutefulInitialState visitedB.
Proof. apply reachable_navigated, reachable_reduced, reachable_initial. Defined.

(** The specification's example: from [{count: 0}], going from [A] to [B]
    leaves the count at 0; with the count set to 5 in [B], going back to [A]
    restores the 0 cached for [A], and going to [B] again restores the 5. *)
Example count_across_navigations :
  let s1 := updateRoutefulState initialState (Some "A") "B" in
  let s2 := withCount 5 s1 in
  let s3 := updateRoutefulState s2 (Some "B") "A" in
  let s4 := updateRoutefulState s3 (Some "A") "B" in
  getField s1 "count" = JNum 0 ∧ getField s3 "count" = JNum 0 ∧
  getField s4 "count" = JNum 5 ∧ getField s4 "theme" = JStr "dark".
Proof. repeat split; vm_compute; reflexivity. Qed.

Lemma cached_snapshots_have_routeful_keys_witness :
  reachable routefulInitialState nonRoutefulInitialState visitedB ∧
  cachedFor visitedB "A" = Some {["count" := JNum 5]} ∧
  dom ({["count" := JNum 5]} : gmap string jsval) = dom routefulInitialState.
Proof.
  assert (cachedFor visitedB "A" = Some {["count" := JNum 5]}) as Hc
    by (vm_compute; reflexivity).
  split; [exact reachable_visitedB|]. split; [exact Hc|].
  exact (cached_snapshots_have_routeful_keys routefulInitialState
           nonRoutefulInitialState visitedB "A" _ reachable_visitedB Hc).
Defined.

(** Back in [A] the count is the 5 that was live when [A] was left. *)
Lemma live_state_after_transition_witness :
  reachable routefulInitialState nonRoutefulInitialState visitedB ∧
  inherited "A" = false ∧
  routefulStateToCache (updateRoutefulState visitedB (Some "B") "A") =
  {["count" := JNum 5]}.
Proof.
  assert (inherited "A" = false) as HA by reflexivity.
  split; [exact reachable_visitedB|]. split; [exact HA|].
  etrans.
  - exact (live_state_after_transition routefulInitialState
             nonRoutefulInitialState visitedB (Some "B") "A"
             reachable_visitedB HA).
  - vm_compute. reflexivity.
Defined.

(** C1 as stated fails for the empty string as previous namespace id: it is
    not null, [B] has no snapshot, and still the count stays 5 instead of
    going back to the initial 0. *)
Lemma live_state_after_transition_counterexample :
  reachable routefulInitialState nonRoutefulInitialState
    (withCount 5 initialState) ∧
  Some "" ≠ (None : option string) ∧
  cachedFor (withCount 5 initialState) "B" = None ∧
  routefulStateToCache
    (updateRoutefulState (withCount 5 initialState) (Some "") "B") =
  {["count" := JNum 5]} ∧
  routefulInitialState = {["count" := JNum 0]}.
Proof.
  split; [apply reachable_reduced, reachable_initial|].
  split; [done|]. split; [reflexivity|]. split; vm_compute; reflexivity.
Qed.

Lemma previous_state_is_cached_witness :
  "A" ≠ "" ∧
  cachedFor (updateRoutefulState (withCount 5 initialState) (Some "A") "B") "A"
  = Some {["count" := JNum 5]}.
Proof.
  assert ("A" ≠ "") as HA by done.
  split; [exact HA|]. etrans.
  - exact (proj1 (previous_state_is_cached routefulInitialState
                    (withCount 5 initialState) "A" "B" HA)).
  - vm_compute. reflexivity.
Defined.

(** C2 as stated fails for the empty string as previous namespace id: it is
    not null, and nothing is cached under it. *)
Lemma previous_state_is_cached_counterexample :
  Some "" ≠ (None : option string) ∧
  cachedFor (updateRoutefulState (withCount 5 initialState) (Some "") "B") ""
  = None.
Proof. split; [done|]. vm_compute. reflexivity. Qed.

Lemma first_navigation_keeps_fields_witness :
  cachedFor (withCount 5 initialState) "A" = None ∧
  fields (updateRoutefulState (withCount 5 initialState) None "A") =
  fields (withCount 5 initialState) ∧
  routefulStateToCache (updateRoutefulState (withCount 5 initialState) None "A")
  = routefulStateToCache (withCount 5 initialState).
Proof.
  split; [reflexivity|].
  apply (first_navigation_keeps_fields routefulInitialState
           (withCount 5 initialState) "A").
  reflexivity.
Defined.

Lemma revisit_restores_mutated_snapshot_witness :
  "B" ≠ "" ∧
  routefulStateToCache
    (updateRoutefulState
       (updateRoutefulState
          (withCount 5 (updateRoutefulState initialState (Some "A") "B"))
          (Some "B") "A")
       (Some "A") "B") =
  routefulStateToCache
    (withCount 5 (updateRoutefulState initialState (Some "A") "B")).
Proof.
  split; [done|].
  apply (revisit_restores_mutated_snapshot routefulInitialState initialState
           "A" "B"
           (<["count" := JNum 5]>
              (fields (updateRoutefulState initialState (Some "A") "B")))).
  done.
Defined.

(** C4 as stated fails when [B] is the empty string: the count set to 5 in
    [B] is never cached, and coming back to [B] resets it to 0. *)
Lemma revisit_restores_mutated_snapshot_counterexample :
  "A" ≠ "" ∧
  routefulStateToCache
    (withCount 5 (updateRoutefulState initialState (Some "A") "")) =
  {["count" := JNum 5]} ∧
  routefulStateToCache
    (updateRoutefulState
       (updateRoutefulState
          (withCount 5 (updateRoutefulState initialState (Some "A") ""))
          (Some "") "A")
       (Some "A") "") =
  {["count" := JNum 0]}.
Proof. split; [done|]. split; vm_compute; reflexivity. Qed.

Lemma cache_never_evicts_witness :
  is_Some (cachedFor visitedB "A") ∧
  is_Some (cachedFor (updateRoutefulState visitedB (Some "B") "C") "A").
Proof.
  assert (is_Some (cachedFor visitedB "A")) as H by (vm_compute; eauto).
  split; [exact H|].
  exact (cache_never_evicts routefulInitialState visitedB (Some "B") "C" "A" H).
Defined.

Lemma non_routeful_fields_untouched_witness :
  (∀ snapshot, cachedFor visitedB "A" = Some snapshot →
     dom snapshot ⊆ dom routefulInitialState) ∧
("theme" ∉ dom routefulInitialState) ∧
  fields (updateRoutefulState visitedB (Some "B") "A") !! "theme" =
  fields visitedB !! "theme".
Proof.
  assert (∀ snapshot, cachedFor visitedB "A" = Some snapshot →
            dom snapshot ⊆ dom routefulInitialState) as Hwf.
  { intros snapshot H. vm_compute in H. injection H as <-.
    unfold routefulInitialState. done. }
  assert ("theme" ∉ dom routefulInitialState) as Hkey.
  { apply not_elem_of_dom. reflexivity. }
  split; [exact Hwf|]. split; [exact Hkey|].
  exact (non_routeful_fields_untouched routefulInitialState visitedB
           (Some "B") "A" "theme" Hwf Hkey).
Defined.

(** C10 as stated fails on a state whose cached snapshot has a key that is
    not a routeful one: restoring it overwrites the theme. *)
Lemma non_routeful_fields_untouched_counterexample :
("theme" ∉ dom routefulInitialState) ∧
  fields handWritten !! "theme" = Some (JStr "dark") ∧
  fields (updateRoutefulState handWritten None "B") !! "theme" =
  Some (JStr "light").
Proof.
  split; [apply not_elem_of_dom; reflexivity|].
  split; vm_compute; reflexivity.
Qed.

Lemma same_namespace_is_identity_witness :
  ((∃ b, Some (experiment "1") = Some b ∧
         getRouteId (routeKind b) (params b) =
         getRouteId (routeKind (experiment "1")) (params (experiment "1"))) ∨
   Some resetCount = None) ∧
  reducers getRouteId routefulInitialState nonRoutefulInitialState
    (Some resetCount) (Some visitedB)
    (navigated (Some (experiment "1")) (experiment "1") (Some "B") "B") =
  visitedB.
Proof.
  assert ((∃ b, Some (experiment "1") = Some b ∧
             getRouteId (routeKind b) (params b) =
             getRouteId (routeKind (experiment "1"))
               (params (experiment "1"))) ∨
          Some resetCount = None) as H.
  { left. exists (experiment "1"). split; reflexivity. }
  split; [exact H|].
  exact (same_namespace_is_identity getRouteId routefulInitialState
           nonRoutefulInitialState (Some resetCount) visitedB
           (Some (experiment "1")) (experiment "1") "B" H).
Defined.

Lemma one_route_live_witness :
  Forall (λ id, id ≠ "" ∧ inherited id = false) (navigatedIds session) ∧
  (run routefulInitialState nonRoutefulInitialState session).1 = Some "A" ∧
  routefulStateToCache
    (run routefulInitialState nonRoutefulInitialState session).2 =
  {["count" := JNum 5]} ∧
  cachedFor (run routefulInitialState nonRoutefulInitialState session).2 "B" =
  Some {["count" := JNum 0]}.
Proof.
  assert (Forall (λ id, id ≠ "" ∧ inherited id = false) (navigatedIds session))
    as Hids.
  { repeat constructor; done. }
  destruct (one_route_live routefulInitialState nonRoutefulInitialState
              session Hids) as (Hcur & Hlive & Hdormant).
  split; [exact Hids|]. split; [|split].
  - rewrite Hcur. reflexivity.
  - etrans; [exact Hlive|]. vm_compute. reflexivity.
  - apply Hdormant.
    + vm_compute. done.
    + vm_compute. reflexivity.
Defined.

(** C6 as stated fails when a namespace id is the empty string: after going
    from it to [B], the count assigned under it is still live at the top
    level, where [B] should start from the initial 0, and the cache has no
    entry for it. *)
Lemma one_route_live_counterexample :
  (run routefulInitialState nonRoutefulInitialState sessionFromEmptyId).1 =
  Some "B" ∧
  routefulStateToCache
    (run routefulInitialState nonRoutefulInitialState sessionFromEmptyId).2 =
  {["count" := JNum 5]} ∧
  liveValues
    (perRouteRun routefulInitialState nonRoutefulInitialState
       sessionFromEmptyId) =
  {["count" := JNum 0]} ∧
  valuesOf
    (perRouteRun routefulInitialState nonRoutefulInitialState
       sessionFromEmptyId) !! "" =
  Some {["count" := JNum 5]} ∧
  cachedFor
    (run routefulInitialState nonRoutefulInitialState sessionFromEmptyId).2 ""
  = None.
Proof. repeat split; vm_compute; reflexivity. Qed.


(** On the store: going from namespace [B] to [A] returns a new object that
    reads as the transition of the state read at 2, and leaves 2 as it was. *)
Lemma transition_is_total_and_pure_witness :
  RouteContextedHeap.readState store 2%positive = Some storeState ∧
  ∃ res h',
    RouteContextedHeap.updateRoutefulState 1%positive ["count"] 2%positive
      (Some "B") "A" store = RouteContextedHeap.Returns res h' ∧
    store !! res = None ∧
    RouteContextedHeap.readState h' 2%positive = Some storeState ∧
    RouteContextedHeap.readState h' res =
    Some (updateRoutefulState storeState (Some "B") "A").
Proof.
  assert (RouteContextedHeap.readState store 2%positive = Some storeState)
    as Hread by (vm_compute; reflexivity).
  split; [exact Hread|].
  destruct (transition_is_total_and_pure 1%positive ["count"] 2%positive
              (Some "B") "A" store)
    as (res & h' & Hrun & Hsub & Hfresh & Hkept & Hsim).
  exists res, h'. split; [exact Hrun|]. split; [exact Hfresh|].
  split; [exact (Hkept storeState Hread)|].
  apply (Hsim routefulInitialState storeState).
  - reflexivity.
  - intros k. unfold routefulInitialState. rewrite dom_singleton_L.
    rewrite list_elem_of_singleton, elem_of_singleton. done.
  - intros k ->%list_elem_of_singleton. reflexivity.
  - apply not_elem_of_dom. reflexivity.
  - exact Hread.
  - intros snapshot H. vm_compute in H. injection H as <-.
    apply not_elem_of_dom. reflexivity.
Defined.

(** What the transition of the example store returns, run. *)
Example transition_on_store :
  ∃ res h',
    RouteContextedHeap.updateRoutefulState 1%positive ["count"] 2%positive
      (Some "B") "A" store = RouteContextedHeap.Returns res h' ∧
    RouteContextedHeap.readState h' res =
    Some {| fields := {["count" := JNum 7; "theme" := JStr "dark"]};
            privateNamespacedState :=
              Some {["A" := {["count" := JNum 7]};
                     "B" := {["count" := JNum 5]}]} |}.
Proof. eexists _, _. split; vm_compute; reflexivity. Qed.

(** Into a namespace called [constructor], which the cache at 3 has no entry
    for: the lookup reads the built-in the cache inherits, and the state
    returned keeps the count of 5 where the routeful initial state has 0; the
    5 is cached for [B] all the same.  The computation on values agrees. *)
Example transition_on_store_into_constructor :
  ∃ res h',
    RouteContextedHeap.updateRoutefulState 1%positive ["count"] 2%positive
      (Some "B") "constructor" store = RouteContextedHeap.Returns res h' ∧
    RouteContextedHeap.readState h' res =
    Some {| fields := {["count" := JNum 5; "theme" := JStr "dark"]};
            privateNamespacedState :=
              Some {["A" := {["count" := JNum 7]};
                     "B" := {["count" := JNum 5]}]} |} ∧
    RouteContextedHeap.readState h' res =
    Some (updateRoutefulState storeState (Some "B") "constructor").
Proof. eexists _, _. repeat split; vm_compute; reflexivity. Qed.

Lemma full_path_of_route_witness :
  queryParams experiments = [] ∧
  queryParams (experiment "42") ≠ [] ∧
  Location.getFullPathFromRouteOrNav urlPathname encode window
    (Location.ARoute experiments) None = Some "/experiments" ∧
  Location.getFullPathFromRouteOrNav urlPathname encode window
    (Location.ARoute (experiment "42")) None =
  Some "/experiment/42?tag=loss&smoothing=0.6".
Proof.
  assert (queryParams experiments = []) as Hnone by reflexivity.
  assert (queryParams (experiment "42") ≠ []) as Hsome by done.
  split; [exact Hnone|]. split; [exact Hsome|]. split.
  - etrans.
    + exact (proj1 (full_path_of_route urlPathname encode window experiments)
               Hnone).
    + reflexivity.
  - etrans.
    + exact (proj2 (full_path_of_route urlPathname encode window
                      (experiment "42")) Hsome).
    + reflexivity.
Defined.

(** With the hash kept, the example route ends in the hash of the window. *)
Example full_path_with_hash_of_experiment :
  Location.getFullPathFromRouteOrNav urlPathname encode window
    (Location.ARoute (experiment "42")) (Some true) =
  Some "/experiment/42?tag=loss&smoothing=0.6#scalars".
Proof. reflexivity. Qed.

(** A navigation request to the list of experiments. *)
Example full_path_of_navigation_request :
  Location.getFullPathFromRouteOrNav (RouteKind := string)
    (RouteParams := string) urlPathname encode window
    (Location.ANavigation (Location.mkNavigation "/experiments")) None =
  Some "/experiments".
Proof. reflexivity. Qed.

End DemoFacts.

(** ** More on the transition *)

Module TransitionFacts.
Import RouteContextedState RouteContextedStateFacts.

Section transition.
Variable routefulInitialState : gmap string jsval.
Variable nonRoutefulInitialState : gmap string jsval.

Local Abbreviation routefulStateToCache :=
  (routefulStateToCache routefulInitialState).
Local Abbreviation updateRoutefulState :=
  (updateRoutefulState routefulInitialState).
Local Abbreviation initialState :=
  (initialState routefulInitialState nonRoutefulInitialState).
Local Abbreviation reachable :=
  (reachable routefulInitialState nonRoutefulInitialState).

(** X4: there and back.  From a reachable state that has every routeful
    field, leaving a namespace [A] (not the empty string) for any [B] and
    coming straight back gives the fields the state had: the routeful ones
    come back from the cache, the others were never touched. *)
Theorem there_and_back_keeps_fields state A B :
  reachable state →
  A ≠ "" →
  dom routefulInitialState ⊆ dom (fields state) →
  fields (updateRoutefulState (updateRoutefulState state (Some A) B) (Some B) A)
  = fields state.
Proof.
  intros Hreach HA Hdom.
  set (s1 := updateRoutefulState state (Some A) B).
  assert (cachedFor s1 A = Some (routefulStateToCache state)) as Hc.
  { unfold s1. rewrite cachedFor_updateRoutefulState. by rewrite decide_True. }
  apply map_eq. intros k.
  unfold RouteContextedState.updateRoutefulState at 1.
  rewrite (lookupCache_Snapshot _ _ _ Hc).
  cbn [fields]. rewrite lookup_spread2, lookup_routefulStateToCache.
  destruct (decide (k ∈ dom routefulInitialState)) as [Hk|Hk].
  - unfold getField. assert (k ∈ dom (fields state)) as Hin by by apply Hdom.
    apply elem_of_dom in Hin as [v Hv]. by rewrite Hv.
  - unfold s1. by apply (reachable_non_routeful_fields_untouched
                           _ nonRoutefulInitialState).
Qed.

(** X6: when the two initial states share no key, the routeful fields live
    in the initial state are the routeful initial state, the one a cache
    miss resets to, and nothing is cached. *)
Theorem initial_state_is_routeful_initial_state :
  (∀ k, k ∈ dom routefulInitialState → nonRoutefulInitialState !! k = None) →
  routefulStateToCache initialState = routefulInitialState ∧
  ∀ id, cachedFor initialState id = None.
Proof.
  intros Hdisjoint. split.
  - apply map_eq. intros k. rewrite lookup_routefulStateToCache.
    case_decide as Hk.
    + unfold getField. simpl. rewrite lookup_spread2, (Hdisjoint k Hk).
      apply elem_of_dom in Hk as [v Hv]. by rewrite Hv.
    + symmetry. by apply not_elem_of_dom.
  - intros id. unfold cachedFor. simpl. apply lookup_empty.
Qed.

(** X7: a state without [privateNamespacedState], as tests build it, goes
    through a transition into a namespace whose id is not the name of a
    member of [Object.prototype] exactly as the same state with an empty
    cache. *)
Theorem missing_cache_is_empty_cache flds before N :
  inherited N = false →
  updateRoutefulState (mkFullState flds None) before N =
  updateRoutefulState (mkFullState flds (Some ∅)) before N.
Proof.
  intros HN.
  unfold RouteContextedState.updateRoutefulState, lookupCache, cacheOf.
  cbn [privateNamespacedState fields default from_option id].
  rewrite lookup_empty, HN.
  by rewrite (routefulStateToCache_fields routefulInitialState
                (mkFullState flds None) (mkFullState flds (Some ∅))).
Qed.

(** X15: the name of a member of [Object.prototype] as namespace id is
    taken for a cached snapshot.  When the state has a cache with no entry
    of its own under such a name, the lookup finds the built-in the cache
    inherits, and the transition into that namespace leaves every field as
    it is, whatever the previous namespace: the routeful fields are not
    reset to their initial values. *)
Theorem inherited_name_is_taken_for_a_snapshot state before N :
  is_Some (privateNamespacedState state) →
  cachedFor state N = None →
  inherited N = true →
  fields (updateRoutefulState state before N) = fields state.
Proof.
  intros [cache Hcache] Hmiss HN.
  unfold RouteContextedState.updateRoutefulState.
  rewrite lookupCache_cachedFor, Hmiss, Hcache, HN. cbn [fields].
  unfold spread2. apply (left_id_L ∅ (∪)).
Qed.

(** X8: assigning to a field that is not routeful and navigating commute:
    in a reachable state it makes no difference whether another reducer sets
    the field before the transition or after it. *)
Theorem non_routeful_assignment_commutes state before N key value :
  reachable state →
  key ∉ dom routefulInitialState →
  updateRoutefulState (withFields (<[key := value]> (fields state)) state)
    before N =
  withFields
    (<[key := value]> (fields (updateRoutefulState state before N)))
    (updateRoutefulState state before N).
Proof.
  intros Hreach Hkey.
  assert (routefulStateToCache
            (withFields (<[key := value]> (fields state)) state) =
          routefulStateToCache state) as Hsnap.
  { apply routefulStateToCache_fields. intros k Hk. simpl.
    rewrite lookup_insert_ne; [done | by intros <-]. }
  unfold RouteContextedState.updateRoutefulState. rewrite Hsnap.
  change (lookupCache (withFields (<[key := value]> (fields state)) state) N)
    with (lookupCache state N).
  change (cacheOf (withFields (<[key := value]> (fields state)) state))
    with (cacheOf state).
  unfold withFields. cbn [fields privateNamespacedState]. f_equal.
  unfold spread2. symmetry. apply insert_union_r.
  rewrite lookupCache_cachedFor.
  destruct (cachedFor state N) as [snapshot|] eqn:Hc.
  - apply not_elem_of_dom.
    by rewrite (reachable_cacheWellFormed _ _ _ Hreach _ _ Hc).
  - apply not_elem_of_dom in Hkey.
    destruct (privateNamespacedState state); [destruct (inherited N)|];
      try destruct (truthyId before); done || apply lookup_empty.
Qed.



(** X13: restoring and caching again is the identity on a cache entry: in
    a reachable state, entering a namespace [N] (not the empty string) that
    has a snapshot and leaving it with the fields untouched leaves that
    snapshot in the cache as it was. *)
Theorem visit_without_changes_keeps_snapshot state before N M snapshot :
  reachable state →
  N ≠ "" →
  cachedFor state N = Some snapshot →
  cachedFor
    (updateRoutefulState (updateRoutefulState state before N) (Some N) M) N
  = Some snapshot.
Proof.
  intros Hreach HN Hc. rewrite cachedFor_updateRoutefulState.
  rewrite decide_True by done. f_equal.
  apply (routefulStateToCache_updateRoutefulState_hit _ _ _ _ _ Hc).
  by apply (reachable_cacheWellFormed _ _ _ Hreach _ _ Hc).
Qed.

(** A transition with a null previous namespace id into a namespace the
    cache has no entry for gives back a state that has a cache as it is. *)
Lemma first_navigation_is_identity flds cache N :
  cache !! N = None →
  updateRoutefulState (mkFullState flds (Some cache)) None N =
  mkFullState flds (Some cache).
Proof.
  intros Hmiss. unfold RouteContextedState.updateRoutefulState, lookupCache.
  cbn [privateNamespacedState fields truthyId cacheOf default from_option id].
  rewrite Hmiss.
  assert (spread2 flds ∅ = flds) as Hkept
    by (unfold spread2; apply (left_id_L ∅ (∪))).
  destruct (inherited N); by rewrite Hkept.
Qed.

End transition.

Section bootstrap.
Context {RouteKind RouteParams : Type}.
Variable getRouteId : RouteKind → RouteParams → string.
Variable routefulInitialState : gmap string jsval.
Variable nonRoutefulInitialState : gmap string jsval.
Variable onRouteIdChanged :
  option (FullState → Route RouteKind RouteParams → FullState).

(** X14: the first [navigated] action of a store (no state yet, no route and
    no namespace before) leaves the slice in its initial state, handed to
    [onRouteIdChanged] with the new route when there is such a callback. *)
Theorem first_action_starts_from_initial_state after afterNamespaceId :
  reducers getRouteId routefulInitialState nonRoutefulInitialState
    onRouteIdChanged None (navigated None after None afterNamespaceId) =
  match onRouteIdChanged with
  | Some callback =>
      callback (initialState routefulInitialState nonRoutefulInitialState)
        after
  | None => initialState routefulInitialState nonRoutefulInitialState
  end.
Proof.
  unfold reducers, onNavigated. cbn [default from_option].
  rewrite (bool_decide_true (None ≠ Some afterNamespaceId)) by done.
  unfold RouteContextedState.initialState at 1 3.
  rewrite first_navigation_is_identity by apply lookup_empty.
  destruct onRouteIdChanged as [callback|]; [|done].
  by rewrite bool_decide_true.
Qed.

End bootstrap.
End TransitionFacts.

(** ** More on runs *)

Module RunFacts.
Import RouteContextedState RouteContextedStateFacts NavigationFacts.
Import SharedFields.

Section runs.
Variable routefulInitialState : gmap string jsval.
Variable nonRoutefulInitialState : gmap string jsval.

Local Abbreviation run := (run routefulInitialState nonRoutefulInitialState).
Local Abbreviation step := (step routefulInitialState).

Lemma navigatedIds_snoc events e :
  navigatedIds (events ++ [e]) =
  navigatedIds events ++
  match e with Navigate id => [id] | Assign _ _ => [] end.
Proof. unfold navigatedIds. rewrite omap_app. by destruct e. Qed.

(** The cache after one step: at most the namespace the app was in is new,
    and the cache is at most one entry larger. *)
Lemma cache_step c e id :
  is_Some (cachedFor (step c e).2 id) →
  is_Some (cachedFor c.2 id) ∨ c.1 = Some id.
Proof.
  destruct e as [N|key value]; simpl; [|by left].
  case_bool_decide; [|by left].
  rewrite cachedFor_updateRoutefulState.
  case_decide as Hd; [destruct Hd as [-> _]; by right | by left].
Qed.

Lemma cache_size_step c e :
  size (cacheOf (step c e).2) ≤
  size (cacheOf c.2) + match e with Navigate _ => 1 | Assign _ _ => 0 end.
Proof.
  destruct c as [cur state]. destruct e as [N|key value]; cbn [step fst snd].
  - case_bool_decide; [|lia].
    unfold RouteContextedState.updateRoutefulState, cacheOf at 1.
    cbn [privateNamespacedState default from_option id].
    destruct cur as [b|]; [|lia].
    destruct (truthyId (Some b)); [|lia].
    rewrite map_size_insert. destruct (cacheOf state !! b); simpl; lia.
  - change (cacheOf (withFields (<[key := value]> (fields state)) state))
      with (cacheOf state). lia.
Qed.

(** X5: the cache never holds more than the namespaces visited: along every
    run, each namespace id with a cache entry is one the run navigated to,
    and the cache has no more entries than the run has navigations. *)
Theorem cache_is_bounded_by_navigations events :
  (∀ id, is_Some (cachedFor (run events).2 id) → id ∈ navigatedIds events) ∧
  size (cacheOf (run events).2) ≤ length (navigatedIds events).
Proof.
  induction events as [|e events [IHin IHsize]] using rev_ind.
  - split.
    + intros id [v Hv]. unfold cachedFor in Hv. simpl in Hv.
      by rewrite lookup_empty in Hv.
    + change (cacheOf (run []).2) with (∅ : gmap string (gmap string jsval)).
      by rewrite map_size_empty.
  - rewrite run_snoc, navigatedIds_snoc. split.
    + intros id Hid. apply elem_of_app. left.
      destruct (cache_step _ _ _ Hid) as [Hold|Hcur].
      * by apply IHin.
      * by apply (run_current routefulInitialState nonRoutefulInitialState).
    + rewrite length_app. pose proof (cache_size_step (run events) e) as Hstep.
      destruct e; simpl in *; lia.
Qed.

(** X10: a field that is not routeful is shared by all routes: along every
    run it holds the value last assigned to it (the one of the non-routeful
    initial state if none was), whatever navigations happened since. *)
Theorem non_routeful_field_is_shared events key :
  key ∉ dom routefulInitialState →
  fields (run events).2 !! key =
  lastAssigned key (nonRoutefulInitialState !! key) events.
Proof.
  intros Hkey. induction events as [|e events IH] using rev_ind.
  - simpl. rewrite lookup_spread2.
    destruct (nonRoutefulInitialState !! key); [done|].
    by apply not_elem_of_dom.
  - rewrite run_snoc. unfold lastAssigned. rewrite foldl_snoc.
    fold (lastAssigned key (nonRoutefulInitialState !! key) events).
    rewrite <- IH. destruct e as [N|k v]; simpl.
    + case_bool_decide; [|done].
      apply (reachable_non_routeful_fields_untouched
               _ nonRoutefulInitialState); [apply run_reachable | done].
    + case_decide as Hk.
      * subst k. apply lookup_insert_eq.
      * by apply lookup_insert_ne.
Qed.

End runs.
End RunFacts.

(** ** More on the transition on a store *)

Module StoreFacts.
Import RouteContextedHeap RouteContextedHeapFacts.

Section createRouteContextedState.
Variable routefulInitialState : loc.
Variable keys : list string.

Local Abbreviation updateRoutefulState :=
  (updateRoutefulState routefulInitialState keys).

(** The cache object a transition builds: new, and for a previous namespace
    id that is not falsy holding under it a reference to a new object. *)
Lemma returnsWith_nextCache state before l1 copied h h1 :
  h ⊆ h1 → h !! l1 = None → h1 !! l1 = Some copied →
  returnsWith
    match before with
    | Some id =>
        if truthyId before then
          routefulStateToCache ← newObject ∅;
          forOf keys (λ key,
            v ← getProperty (JRef state) key;
            setProperty routefulStateToCache key v);;
          copied ← spread (JRef l1);
          newObject (<[id := JRef routefulStateToCache]> copied)
        else mret l1
    | None => mret l1
    end
    h1
    (λ cacheLoc h4,
       h ⊆ h4 ∧ h !! cacheLoc = None ∧
       ∃ cacheObj,
         h4 !! cacheLoc = Some cacheObj ∧
         ∀ id, before = Some id → id ≠ "" →
           ∃ snapLoc,
             cacheObj !! id = Some (JRef snapLoc) ∧ h !! snapLoc = None ∧
             snapLoc ≠ cacheLoc ∧ is_Some (h4 !! snapLoc)).
Proof.
  intros Hsub1 Hl1 Hcopied.
  assert (returnsWith (mret l1) h1
            (λ cacheLoc h4,
               h ⊆ h4 ∧ h !! cacheLoc = None ∧
               ∃ cacheObj,
                 h4 !! cacheLoc = Some cacheObj ∧
                 ∀ id, before = Some id → id ≠ "" → truthyId before = true))
    as Hsame.
  { apply returnsWith_ret. split; [done|]. split; [done|].
    exists copied. split; [done|]. intros id -> Hid. simpl.
    by apply bool_decide_eq_true. }
  destruct before as [id|]; [|].
  - destruct (truthyId (Some id)) eqn:Htruthy.
    + apply returnsWith_bind, returnsWith_newObject. intros l2 Hl2.
      assert (l2 ≠ l1) as Hl21 by congruence.
      assert (h !! l2 = None) as Hl2' by by eapply lookup_weaken_None.
      apply returnsWith_bind.
      apply (returnsWith_mono _ _
        (λ _ hc, h ⊆ hc ∧ is_Some (hc !! l2) ∧ hc !! l1 = Some copied)).
      * intros [] hc (Hsubc & Hsnap & Hcopied').
        apply returnsWith_bind, returnsWith_spread. simpl. rewrite Hcopied'.
        simpl. apply returnsWith_newObject. intros l3 Hl3.
        split; [by etrans; [|apply insert_subseteq]|].
        split; [by eapply lookup_weaken_None|].
        eexists. split; [apply lookup_insert_eq|].
        intros id' [= <-] _. exists l2.
        split; [apply lookup_insert_eq|]. split; [done|].
        assert (l2 ≠ l3) as Hl23 by (intros ->; by destruct Hsnap; congruence).
        split; [done|]. by rewrite lookup_insert_ne.
      * apply (returnsWith_forOf
                 (λ hc, h ⊆ hc ∧ is_Some (hc !! l2) ∧ hc !! l1 = Some copied)).
        -- intros key hc (Hsubc & Hsnap & Hcopied').
           apply returnsWith_bind, returnsWith_getProperty_ref.
           apply returnsWith_setProperty.
           split; [by apply insert_subseteq_r|].
           split; [rewrite lookup_insert_eq; eauto|].
           by rewrite lookup_insert_ne.
        -- split; [by apply insert_subseteq_r|].
           split; [rewrite lookup_insert_eq; eauto|].
           by rewrite lookup_insert_ne.
    + eapply returnsWith_mono; [|exact Hsame].
      intros cacheLoc h4 (? & ? & cacheObj & ? & Hnever).
      split; [done|]. split; [done|]. exists cacheObj. split; [done|].
      intros id' Hb Hid. by specialize (Hnever id' Hb Hid).
  - eapply returnsWith_mono; [|exact Hsame].
    intros cacheLoc h4 (? & ? & cacheObj & ? & _).
    split; [done|]. split; [done|]. exists cacheObj. split; [done|].
    intros id' [=].
Qed.

(** X11: the cache of the returned state is a new object, and what it holds
    for the previous namespace id (when that is neither null nor empty) is a
    reference to a new object, which is neither the returned state nor any
    object of the store the transition started from: the snapshot is a copy,
    never the state object itself. *)
Theorem transition_caches_fresh_copies state before N h :
  ∃ res h' stateObj cacheLoc cacheObj,
    updateRoutefulState state before N h = Returns res h' ∧
    h' !! res = Some stateObj ∧
    stateObj !! "privateNamespacedState" = Some (JRef cacheLoc) ∧
    h' !! cacheLoc = Some cacheObj ∧
    h !! cacheLoc = None ∧ cacheLoc ≠ res ∧
    ∀ id, before = Some id → id ≠ "" →
      ∃ snapLoc,
        cacheObj !! id = Some (JRef snapLoc) ∧ is_Some (h' !! snapLoc) ∧
        h !! snapLoc = None ∧ snapLoc ≠ res ∧ snapLoc ≠ cacheLoc.
Proof.
  cut (returnsWith (updateRoutefulState state before N) h
    (λ res h', ∃ stateObj cacheLoc cacheObj,
       h' !! res = Some stateObj ∧
       stateObj !! "privateNamespacedState" = Some (JRef cacheLoc) ∧
       h' !! cacheLoc = Some cacheObj ∧
       h !! cacheLoc = None ∧ cacheLoc ≠ res ∧
       ∀ id, before = Some id → id ≠ "" →
         ∃ snapLoc,
           cacheObj !! id = Some (JRef snapLoc) ∧ is_Some (h' !! snapLoc) ∧
           h !! snapLoc = None ∧ snapLoc ≠ res ∧ snapLoc ≠ cacheLoc)).
  { intros Hrun.
    destruct (returnsWith_inv _ _ _ Hrun)
      as (res & h' & Heq & stateObj & cacheLoc & cacheObj & Hpost).
    by exists res, h', stateObj, cacheLoc, cacheObj. }
  unfold RouteContextedHeap.updateRoutefulState.
  apply returnsWith_bind, returnsWith_getProperty_ref.
  apply returnsWith_bind, returnsWith_spread.
  apply returnsWith_bind, returnsWith_newObject. intros l1 Hl1.
  apply returnsWith_bind.
  eapply returnsWith_mono;
    [|eapply (returnsWith_nextCache state before l1);
      [by apply insert_subseteq | done | apply lookup_insert_eq]].
  intros cacheLoc h4 (Hsub4 & HcacheNew & cacheObj & Hcache4 & Hsnap).
  apply returnsWith_bind, returnsWith_newObject. intros l4 Hl4.
  assert (h4 ⊆ <[l4 := ∅]> h4) as Hsub5 by by apply insert_subseteq.
  apply returnsWith_bind, returnsWith_getProperty_ref.
  apply returnsWith_bind, returnsWith_getPropertyOptional. intros cached Hcached.
  apply returnsWith_bind.
  apply (returnsWith_mono _ _ (λ _ h', h' = <[l4 := ∅]> h4)).
  - intros next h5 ->.
    apply returnsWith_bind, returnsWith_spread.
    apply returnsWith_bind, returnsWith_spread.
    apply returnsWith_newObject. intros res Hres.
    pose proof (lookup_weaken _ _ _ _ Hcache4 Hsub5) as Hcache5.
    assert (cacheLoc ≠ res) as Hcr by congruence.
    eexists _, cacheLoc, cacheObj.
    split; [apply lookup_insert_eq|]. split; [apply lookup_insert_eq|].
    split; [by rewrite lookup_insert_ne|]. split; [done|]. split; [done|].
    intros id Hb Hid.
    destruct (Hsnap id Hb Hid) as (snapLoc & Hentry & HsnapNew & Hsc & [so Hso]).
    pose proof (lookup_weaken _ _ _ _ Hso Hsub5) as Hso5.
    assert (snapLoc ≠ res) as Hsr by congruence.
    exists snapLoc. split; [done|].
    split; [rewrite lookup_insert_ne by done; eauto|]. done.
  - destruct (truthy cached) eqn:Ht.
    + destruct (Hcached eq_refl) as [? ?].
      apply returnsWith_bind, returnsWith_getProperty_ref.
      by apply returnsWith_getProperty.
    + by destruct (truthyId before).
Qed.

End createRouteContextedState.
End StoreFacts.

(** ** The query parameters of the current location *)

Module LocationSearchFacts.
Import LocationSearch.

Section getSearch.
Variable urlSearchParams : string → list (string * string).
Variable search : string.

Lemma forEach_push entries (acc : list QueryParam) :
  forEach entries
    (λ value key serializableSearchParams,
       serializableSearchParams ++ [mkQueryParam key value])
    acc =
  acc ++ map (λ entry, mkQueryParam entry.1 entry.2) entries.
Proof.
  unfold forEach. revert acc.
  induction entries as [|entry entries IH]; intros acc; simpl.
  - by rewrite app_nil_r.
  - rewrite IH. by rewrite <- app_assoc.
Qed.

(** X12: [getSearch] gives one item per entry of the query string, in the
    order of the entries, a repeated key as often as it occurs, each with the
    entry's key as [key] and its value as [value]. *)
Theorem getSearch_keeps_entries_in_order :
  getSearch urlSearchParams search =
  map (λ entry, mkQueryParam entry.1 entry.2) (urlSearchParams search).
Proof. unfold getSearch. by rewrite forEach_push. Qed.

End getSearch.
End LocationSearchFacts.

(** ** These at work on the example slice *)

Module MoreDemoFacts.
Import RouteContextedState Demo.
Import TransitionFacts RunFacts SharedFields.

Lemma demo_reachable_visitedB :
  reachable routefulInitialState nonRoutefulInitialState visitedB.
Proof. apply reachable_navigated, reachable_reduced, reachable_initial. Defined.

Lemma demo_theme_not_routeful : "theme" ∉ dom routefulInitialState.
Proof. apply not_elem_of_dom. reflexivity. Defined.

Lemma there_and_back_keeps_fields_witness :
  reachable routefulInitialState nonRoutefulInitialState visitedB ∧
  "B" ≠ "" ∧
  dom routefulInitialState ⊆ dom (fields visitedB) ∧
  fields (updateRoutefulState (updateRoutefulState visitedB (Some "B") "C")
            (Some "C") "B") = fields visitedB.
Proof.
  assert ("B" ≠ "") as HB by done.
  assert (dom routefulInitialState ⊆ dom (fields visitedB)) as Hdom.
  { intros k Hk. unfold routefulInitialState in Hk.
    rewrite dom_singleton_L in Hk. apply elem_of_singleton in Hk as ->.
    apply elem_of_dom. vm_compute. eauto. }
  split; [exact demo_reachable_visitedB|]. split; [exact HB|].
  split; [exact Hdom|].
  exact (there_and_back_keeps_fields routefulInitialState
           nonRoutefulInitialState visitedB "B" "C"
           demo_reachable_visitedB HB Hdom).
Defined.

Lemma initial_state_is_routeful_initial_state_witness :
  (∀ k, k ∈ dom routefulInitialState → nonRoutefulInitialState !! k = None) ∧
  routefulStateToCache initialState = routefulInitialState.
Proof.
  assert (∀ k, k ∈ dom routefulInitialState →
            nonRoutefulInitialState !! k = None) as Hdisjoint.
  { intros k Hk. unfold routefulInitialState in Hk.
    rewrite dom_singleton_L in Hk. apply elem_of_singleton in Hk as ->.
    reflexivity. }
  split; [exact Hdisjoint|].
  exact (proj1 (initial_state_is_routeful_initial_state routefulInitialState
                  nonRoutefulInitialState Hdisjoint)).
Defined.

(** A state without a cache, as a test builds it, with the count at 5 in
    [A]: going to [B] it behaves as with an empty cache. *)
Lemma missing_cache_is_empty_cache_witness :
  inherited "B" = false ∧
  updateRoutefulState (mkFullState {["count" := JNum 5]} None) (Some "A") "B" =
  updateRoutefulState (mkFullState {["count" := JNum 5]} (Some ∅))
    (Some "A") "B".
Proof.
  assert (inherited "B" = false) as HB by reflexivity.
  split; [exact HB|].
  exact (missing_cache_is_empty_cache routefulInitialState
           {["count" := JNum 5]} (Some "A") "B" HB).
Defined.

(** With the count at 5 in [A], going to a namespace called [constructor]
    leaves the count at 5: it does not start again at 0. *)
Lemma inherited_name_is_taken_for_a_snapshot_witness :
  is_Some (privateNamespacedState (withCount 5 initialState)) ∧
  cachedFor (withCount 5 initialState) "constructor" = None ∧
  inherited "constructor" = true ∧
  fields
    (updateRoutefulState (withCount 5 initialState) (Some "A") "constructor") =
  fields (withCount 5 initialState) ∧
  getField
    (updateRoutefulState (withCount 5 initialState) (Some "A") "constructor")
    "count" = JNum 5.
Proof.
  assert (is_Some (privateNamespacedState (withCount 5 initialState))) as Hcache
    by (vm_compute; eauto).
  assert (cachedFor (withCount 5 initialState) "constructor" = None) as Hmiss
    by reflexivity.
  assert (inherited "constructor" = true) as HN by reflexivity.
  split; [exact Hcache|]. split; [exact Hmiss|]. split; [exact HN|].
  split.
  - exact (inherited_name_is_taken_for_a_snapshot routefulInitialState
             (withCount 5 initialState) (Some "A") "constructor"
             Hcache Hmiss HN).
  - vm_compute. reflexivity.
Defined.

Lemma non_routeful_assignment_commutes_witness :
  reachable routefulInitialState nonRoutefulInitialState visitedB ∧
  ("theme" ∉ dom routefulInitialState) ∧
  updateRoutefulState
    (withFields (<["theme" := JStr "light"]> (fields visitedB)) visitedB)
    (Some "B") "A" =
  withFields
    (<["theme" := JStr "light"]>
       (fields (updateRoutefulState visitedB (Some "B") "A")))
    (updateRoutefulState visitedB (Some "B") "A").
Proof.
  split; [exact demo_reachable_visitedB|].
  split; [exact demo_theme_not_routeful|].
  exact (non_routeful_assignment_commutes routefulInitialState
           nonRoutefulInitialState visitedB (Some "B") "A" "theme"
           (JStr "light") demo_reachable_visitedB demo_theme_not_routeful).
Defined.


Lemma visit_without_changes_keeps_snapshot_witness :
  reachable routefulInitialState nonRoutefulInitialState visitedB ∧
  "A" ≠ "" ∧
  cachedFor visitedB "A" = Some {["count" := JNum 5]} ∧
  cachedFor
    (updateRoutefulState (updateRoutefulState visitedB (Some "B") "A")
       (Some "A") "C") "A" = Some {["count" := JNum 5]}.
Proof.
  assert ("A" ≠ "") as HA by done.
  assert (cachedFor visitedB "A" = Some {["count" := JNum 5]}) as Hc
    by (vm_compute; reflexivity).
  split; [exact demo_reachable_visitedB|]. split; [exact HA|].
  split; [exact Hc|].
  exact (visit_without_changes_keeps_snapshot routefulInitialState
           nonRoutefulInitialState visitedB (Some "B") "A" "C" _
           demo_reachable_visitedB HA Hc).
Defined.

Lemma non_routeful_field_is_shared_witness :
  ("theme" ∉ dom routefulInitialState) ∧
  fields (run routefulInitialState nonRoutefulInitialState session).2
    !! "theme" = Some (JStr "light").
Proof.
  split; [exact demo_theme_not_routeful|]. etrans.
  - exact (non_routeful_field_is_shared routefulInitialState
             nonRoutefulInitialState session "theme" demo_theme_not_routeful).
  - vm_compute. reflexivity.
Defined.

(** The example session has three navigations and leaves two entries in the
    cache, for [A] and for [B]. *)
Example cache_of_session :
  length (navigatedIds session) = 3 ∧
  size (cacheOf (run routefulInitialState nonRoutefulInitialState session).2)
  = 2.
Proof. split; vm_compute; reflexivity. Qed.

(** [?tag=loss&tag=accuracy] read back: both [tag]s, in order. *)
Example getSearch_of_repeated_key :
  LocationSearch.getSearch
    (λ _, [("tag", "loss"); ("tag", "accuracy")]) "?tag=loss&tag=accuracy" =
  [mkQueryParam "tag" "loss"; mkQueryParam "tag" "accuracy"].
Proof. reflexivity. Qed.

End MoreDemoFacts.
